(** * Log normalisation and pattern digest: a shallow embedding

    The development follows three source modules of the repository:

    - the log parsers ([detectLogFormat], the per-format row parsers,
      [normalizeLevel], [parseLogRow], [convertWindowsLog]);
    - the CSV ingestion ([parseCSV], from the point where PapaParse hands
      over its [results]);
    - the log processor ([processLogs], [calculateStats]);

    and, further on, the cleaning and mapping of the model's answer in the
    handler and the server action, and what the page shows of the result.

    JavaScript values are modelled as follows.  A string is a sequence of
    UTF-16 code units; the development covers the code units below 256
    (Latin-1), carried by [ascii], on which [toLowerCase] and [trim] are the
    functions written out below.  A number that counts things is a [Z]
    (the counts stay far below 2^53, where doubles are exact); [NaN] is
    explicit where the source can produce it.  An object used as a
    dictionary is an association list of its own properties in insertion
    order, together with the property names it inherits from
    [Object.prototype]. *)

From Stdlib Require Import ZArith Ascii String List Bool Lia QArith Qminmax.
From stdpp Require Import base decidable list strings gmap sorting pretty.

Local Open Scope Z_scope.

(** ** JavaScript primitives used by the source *)

Module JS.

Definition code (c : ascii) : N := N_of_ascii c.

(** [String.prototype.toLowerCase] on one code unit below 256: the
    letters A-Z and the Latin-1 capitals U+00C0..U+00DE (U+00D7, the
    multiplication sign, apart) move up by 32. *)
Definition lowerChar (c : ascii) : ascii :=
  let n := code c in
  if ((65 <=? n) && (n <=? 90))%N then ascii_of_N (n + 32)
  else if ((192 <=? n) && (n <=? 222) && negb (n =? 215))%N
       then ascii_of_N (n + 32)
       else c.

Fixpoint toLowerCase (s : string) : string :=
  match s with
  | EmptyString => EmptyString
  | String c r => String (lowerChar c) (toLowerCase r)
  end.

(** White space and line terminators removed by [String.prototype.trim],
    below 256: TAB, LF, VT, FF, CR, SPACE, NBSP. *)
Definition isWhiteSpace (c : ascii) : bool :=
  let n := code c in
  ((n =? 9) || (n =? 10) || (n =? 11) || (n =? 12) || (n =? 13)
   || (n =? 32) || (n =? 160))%N.

Fixpoint trimStart (s : string) : string :=
  match s with
  | EmptyString => EmptyString
  | String c r => if isWhiteSpace c then trimStart r else s
  end.

(** [trimEnd] keeps a character when it is not white space or when
    something remains after it. *)
Fixpoint trimEnd (s : string) : string :=
  match s with
  | EmptyString => EmptyString
  | String c r =>
      match trimEnd r with
      | EmptyString => if isWhiteSpace c then EmptyString
                       else String c EmptyString
      | r' => String c r'
      end
  end.

Definition trim (s : string) : string := trimEnd (trimStart s).

Definition strEq (a b : string) : bool := bool_decide (a = b).

(** JavaScript truthiness of a string: only the empty string is falsy. *)
Definition truthy (s : string) : bool := negb (strEq s "").

(** [a || b] on strings. *)
Definition orElse (a b : string) : string := if truthy a then a else b.

Fixpoint startsWith (p s : string) : bool :=
  match p, s with
  | EmptyString, _ => true
  | String a p', String b s' => bool_decide (a = b) && startsWith p' s'
  | String _ _, EmptyString => false
  end.

(** [s.includes(p)]: [p] occurs in [s] as a contiguous substring. *)
Fixpoint includes (s p : string) : bool :=
  startsWith p s
  || match s with
     | EmptyString => false
     | String _ r => includes r p
     end.

(** [s.match(/a1|a2|.../)] used as a condition, for a pattern that is an
    alternation of literal words without anchors: the match succeeds when
    one of the words occurs in [s]. *)
Definition matchAny (alts : list string) (s : string) : bool :=
  existsb (includes s) alts.

(** The property names every plain object inherits from
    [Object.prototype]. *)
Definition objectPrototypeNames : list string :=
  [ "constructor"; "__defineGetter__"; "__defineSetter__"; "hasOwnProperty";
    "__lookupGetter__"; "__lookupSetter__"; "isPrototypeOf";
    "propertyIsEnumerable"; "toString"; "valueOf"; "__proto__";
    "toLocaleString" ].

Definition inherited (k : string) : bool :=
  existsb (strEq k) objectPrototypeNames.

(** Property names made of decimal digits only; the array indices, which
    an object enumerates before its other properties, are among them. *)
Fixpoint allDigits (s : string) : bool :=
  match s with
  | EmptyString => true
  | String c r => (48 <=? code c)%N && (code c <=? 57)%N && allDigits r
  end.

(** Completions: a JavaScript computation returns a value or throws. *)
Inductive JsError :=
| TypeError (msg : string)
| RangeError (msg : string).

Definition message (e : JsError) : string :=
  match e with TypeError m => m | RangeError m => m end.

Inductive Completion (A : Type) :=
| Normal (a : A)
| Throw (e : JsError).
Arguments Normal {A} a.
Arguments Throw {A} e.

#[global] Instance completion_ret : MRet Completion := fun A a => Normal a.
#[global] Instance completion_bind : MBind Completion := fun A B f m =>
  match m with
  | Normal a => f a
  | Throw e => Throw e
  end.

(** [a || b] where [b] is evaluated only when [a] is falsy. *)
Definition orElseM (a b : Completion string) : Completion string :=
  x ← a; if truthy x then Normal x else b.

(** What [String(f)] gives for a value inherited from [Object.prototype]:
    the prototype object itself under [__proto__], the [Object] function
    under [constructor], and a native method otherwise. *)
Definition inheritedText (k : string) : string :=
  if strEq k "__proto__" then "[object Object]"
  else if strEq k "constructor" then "function Object() { [native code] }"
  else "function " +:+ k +:+ "() { [native code] }".

(** [parseInt(s)] with no radix: leading white space, a sign, an optional
    0x/0X prefix, then the longest run of digits; [None] is [NaN]. *)
Definition digitVal (radix : Z) (c : ascii) : option Z :=
  let n := Z.of_N (code c) in
  let v := if (48 <=? n) && (n <=? 57) then Some (n - 48)
           else if (97 <=? n) && (n <=? 122) then Some (n - 87)
           else if (65 <=? n) && (n <=? 90) then Some (n - 55)
           else None in
  match v with
  | Some d => if d <? radix then Some d else None
  | None => None
  end.

Fixpoint digitsVal (radix : Z) (s : string) (acc : option Z) : option Z :=
  match s with
  | EmptyString => acc
  | String c r =>
      match digitVal radix c with
      | Some d => digitsVal radix r (Some (default 0 acc * radix + d))
      | None => acc
      end
  end.

Definition isChar (c : ascii) (s : string) : bool := strEq (String c "") s.

Definition parseInt (s : string) : option Z :=
  let s1 := trimStart s in
  let '(sign, s2) :=
    match s1 with
    | String c r => if isChar c "-" then (-1, r)
                    else if isChar c "+" then (1, r)
                    else (1, s1)
    | EmptyString => (1, s1)
    end in
  let '(radix, s3) :=
    match s2 with
    | String z (String x r) =>
        if isChar z "0" && (isChar x "x" || isChar x "X")
        then (16, r) else (10, s2)
    | _ => (10, s2)
    end in
  match digitsVal radix s3 None with
  | Some v => Some (sign * v)
  | None => None
  end.

(** [n >= k] for a possibly-NaN [n]. *)
Definition geNum (n : option Z) (k : Z) : bool :=
  match n with Some v => k <=? v | None => false end.

(** [JSON.stringify] on a string (QuoteJSONString). *)
Definition quoteChar : ascii := ascii_of_N 34.
Definition backslash : ascii := ascii_of_N 92.

Definition hexDigit (n : N) : ascii :=
  if (n <? 10)%N then ascii_of_N (48 + n) else ascii_of_N (87 + n).

Definition escapeChar (c : ascii) : string :=
  let n := code c in
  let esc (x : string) := String backslash x in
  if (n =? 34)%N then esc (String quoteChar "")
  else if (n =? 92)%N then esc (String backslash "")
  else if (n =? 8)%N then esc "b"
  else if (n =? 12)%N then esc "f"
  else if (n =? 10)%N then esc "n"
  else if (n =? 13)%N then esc "r"
  else if (n =? 9)%N then esc "t"
  else if (n <? 32)%N
       then esc ("u00" +:+ String (hexDigit (n / 16))
                             (String (hexDigit (n mod 16)) ""))
       else String c "".

Fixpoint escapeString (s : string) : string :=
  match s with
  | EmptyString => EmptyString
  | String c r => escapeChar c +:+ escapeString r
  end.

Definition quoteJSON (s : string) : string :=
  String quoteChar (escapeString s +:+ String quoteChar "").

Fixpoint joinWith (sep : string) (l : list string) : string :=
  match l with
  | [] => ""
  | [x] => x
  | x :: r => x +:+ sep +:+ joinWith sep r
  end.

End JS.

(** ** Data model (the types module) *)

Record LogEntry := mkLogEntry {
  timestamp : string;
  component : string;
  level     : string;
  content   : string;
  source    : option string;
  hostname  : option string;
  pid       : option string
}.

Record WindowsLog := mkWindowsLog {
  LineId : string;
  Time : string;
  Component : string;
  Level : string;
  Content : string
}.

(** [LogDigest]; its [component] and [level] fields are [d_component] and
    [d_level] here, the names being taken by [LogEntry]. *)
Record LogDigest := mkLogDigest {
  d_component : string;
  d_level : string;
  frequency : Z;
  sampleContent : string;
  fingerprint : string
}.

Inductive LogFormat :=
| windows | linux_syslog | apache | hadoop | spark | openssh
| openstack | thunderbird | auto.

(** The source tag a format is written as (the [LogFormat] string). *)
Definition formatName (f : LogFormat) : string :=
  match f with
  | windows => "windows" | linux_syslog => "linux-syslog" | apache => "apache"
  | hadoop => "hadoop" | spark => "spark" | openssh => "openssh"
  | openstack => "openstack" | thunderbird => "thunderbird" | auto => "auto"
  end.

#[global] Instance LogFormat_eq_dec : EqDecision LogFormat.
Proof. solve_decision. Defined.

(** The value of a property of a raw row.  PapaParse with [header: true]
    stores every field of a line as a string under the name of its column;
    the fields of a line that is longer than the header line are collected
    in one array, under the name [__parsed_extra]. *)
Inductive Value :=
| Str (s : string)
| Arr (items : list string).

(** A raw row ([row: any] in the source).  PapaParse hands over plain
    objects, given here by their own properties in enumeration order.
    [RowNull] is the value [null], on which every property access throws;
    [undefined] and primitive values, which PapaParse never hands over
    either, are outside this model. *)
Inductive RawRow :=
| RowObject (props : list (string * Value))
| RowNull.

(** The argument of [processLogs] and [calculateStats]:
    [LogEntry[] | WindowsLog[]]. *)
Inductive LogInput :=
| Unified (logs : list LogEntry)
| Legacy (logs : list WindowsLog).

(** ** The log parsers *)

Module LogParsers.
Import JS.

(** [normalizeLevel]: the four pattern groups are tried in order on the
    case-folded, trimmed level, then the numeric syslog codes, and the
    last line is [return level || 'Info']. *)
Definition normalizeLevel (level : string) : string :=
  let levelLower := trim (toLowerCase level) in
  if matchAny ["error"; "err"; "critical"; "crit"; "fatal"; "emergency"; "emerg"]
              levelLower then "Error"
  else if matchAny ["warn"; "warning"] levelLower then "Warning"
  else if matchAny ["info"; "information"; "notice"] levelLower then "Info"
  else if matchAny ["debug"; "trace"; "verbose"] levelLower then "Debug"
  else if strEq levelLower "0" || strEq levelLower "1" || strEq levelLower "2"
       then "Error"
  else if strEq levelLower "3" || strEq levelLower "4" then "Warning"
  else if strEq levelLower "5" || strEq levelLower "6" then "Info"
  else if strEq levelLower "7" then "Debug"
  else orElse level "Info".

Fixpoint ownProperty (props : list (string * Value)) (k : string) : option Value :=
  match props with
  | [] => None
  | (k', v) :: r => if strEq k' k then Some v else ownProperty r k
  end.

(** [String(v || '')] for the value of an own property: a string is
    itself (the empty string gives way to the empty string), an array is
    truthy and converts to its elements joined by commas. *)
Definition valueText (v : Value) : string :=
  match v with
  | Str s => s
  | Arr items => joinWith "," items
  end.

(** [String(row[k] || '')]: an own property gives the text of its value,
    a name inherited from [Object.prototype] the text of the inherited
    value, anything else the empty string; on [null] the access throws. *)
Definition fieldText (props : list (string * Value)) (k : string) : string :=
  match ownProperty props k with
  | Some v => valueText v
  | None => if inherited k then inheritedText k else ""
  end.

Definition readField (row : RawRow) (k : string) : Completion string :=
  match row with
  | RowNull =>
      Throw (TypeError ("Cannot read properties of null (reading '" +:+ k +:+ "')"))
  | RowObject props => Normal (fieldText props k)
  end.

(** [header || key] for the result of [headers.find]. *)
Definition headerOr (header : option string) (key : string) : string :=
  match header with
  | Some h => orElse h key
  | None => key
  end.

(** The one-argument [getValue] of the Windows parser. *)
Definition getValue1 (row : RawRow) (headers : list string) (key : string)
  : Completion string :=
  let header := find (fun h => strEq (toLowerCase h) (toLowerCase key)) headers in
  readField row (headerOr header key).

(** The two-argument [getValue] of the other parsers; a missing [alt] is
    the empty string there. *)
Definition getValue (row : RawRow) (headers : list string) (key alt : string)
  : Completion string :=
  let header :=
    find (fun h => strEq (toLowerCase h) (toLowerCase key)
                   || strEq (toLowerCase h) (toLowerCase (orElse alt "")))
         headers in
  readField row (headerOr header key).

Fixpoint someM {A} (f : A -> Completion bool) (l : list A) : Completion bool :=
  match l with
  | [] => Normal false
  | x :: r => b ← f x; if (b : bool) then Normal true else someM f r
  end.

Definition detectLogFormat (headers : list string) (sampleRows : list RawRow)
  : Completion LogFormat :=
  let headerLower := map toLowerCase headers in
  let has k := existsb (fun h => strEq h k) headerLower in
  if has "lineid" && has "component" && has "level" then Normal windows
  else if has "timestamp" && (has "hostname" || has "host") then Normal linux_syslog
  else if has "remotehost" || has "request" || has "status" then Normal apache
  else if has "logtime" && (has "level" || has "priority") then Normal hadoop
  else if has "timestamp" && has "logger" then Normal spark
  else
    isSsh ← someM (fun row =>
               v ← readField row (orElse (default "" (head headers)) "");
               let content := toLowerCase v in
               Normal (includes content "sshd" || includes content "connection"
                       || includes content "authentication"))
             sampleRows;
    if (isSsh : bool) then Normal openssh else Normal auto.

Definition parseWindowsLog (row : RawRow) (headers : list string)
  : Completion LogEntry :=
  t ← getValue1 row headers "Time";
  c ← getValue1 row headers "Component";
  l ← getValue1 row headers "Level";
  m ← getValue1 row headers "Content";
  Normal (mkLogEntry t c l m (Some "Windows") None None).

Definition parseLinuxSyslog (row : RawRow) (headers : list string)
  : Completion LogEntry :=
  let getValue := getValue row headers in
  d ← getValue "timestamp" "date";
  t ← getValue "time" "";
  let timestamp := d +:+ " " +:+ t in
  component ← orElseM (getValue "program" "service")
               (orElseM (getValue "component" "daemon") (getValue "logger" ""));
  level ← orElseM (getValue "level" "priority")
           (orElseM (getValue "severity" "") (Normal "Info"));
  content ← orElseM (getValue "message" "msg") (getValue "content" "");
  h ← getValue "hostname" "host";
  p ← getValue "pid" "processid";
  Normal (mkLogEntry (trim timestamp) (orElse component "unknown")
            (normalizeLevel level) content (Some "Linux") (Some h) (Some p)).

Definition parseApacheLog (row : RawRow) (headers : list string)
  : Completion LogEntry :=
  let getValue := getValue row headers in
  timestamp ← getValue "timestamp" "time";
  status ← getValue "status" "code";
  request ← getValue "request" "uri";
  let level := if geNum (parseInt status) 500 then "Error"
               else if geNum (parseInt status) 400 then "Warning"
               else "Info" in
  method ← getValue "method" "";
  referer ← getValue "referer" "";
  h ← getValue "remotehost" "host";
  Normal (mkLogEntry timestamp "apache" level
            (method +:+ " " +:+ request +:+ " - " +:+ status +:+ " - " +:+ referer)
            (Some "Apache") (Some h) None).

Definition parseHadoopLog (row : RawRow) (headers : list string)
  : Completion LogEntry :=
  let getValue := getValue row headers in
  t ← getValue "logtime" "timestamp";
  c ← getValue "logger" "component";
  l ← getValue "level" "priority";
  m ← orElseM (getValue "message" "msg") (getValue "content" "");
  Normal (mkLogEntry t (orElse c "hadoop") (normalizeLevel l) m
            (Some "Hadoop") None None).

Definition parseSparkLog (row : RawRow) (headers : list string)
  : Completion LogEntry :=
  let getValue := getValue row headers in
  t ← getValue "timestamp" "time";
  c ← getValue "logger" "component";
  l ← getValue "level" "priority";
  m ← orElseM (getValue "message" "msg") (getValue "content" "");
  Normal (mkLogEntry t (orElse c "spark") (normalizeLevel l) m
            (Some "Spark") None None).

Definition parseOpenSSHLog (row : RawRow) (headers : list string)
  : Completion LogEntry :=
  let getValue := getValue row headers in
  content ← orElseM (getValue "message" "msg") (getValue "content" "");
  let lower := toLowerCase content in
  let level := if includes lower "error" || includes lower "failed" then "Error"
               else if includes lower "warning" then "Warning"
               else "Info" in
  t ← getValue "timestamp" "date";
  h ← getValue "hostname" "host";
  Normal (mkLogEntry t "sshd" level content (Some "OpenSSH") (Some h) None).

(** The six per-format parsers, by format. *)
Definition rowParser (format : LogFormat)
  : option (RawRow -> list string -> Completion LogEntry) :=
  match format with
  | windows => Some parseWindowsLog
  | linux_syslog => Some parseLinuxSyslog
  | apache => Some parseApacheLog
  | hadoop => Some parseHadoopLog
  | spark => Some parseSparkLog
  | openssh => Some parseOpenSSHLog
  | openstack | thunderbird | auto => None
  end.

(** [parseLogRow].  The [auto]/[default] arm detects the format from the
    single row and calls [parseLogRow] again with what was detected.  That
    inner call is written out here: a detected format with a parser of its
    own takes its arm; one without would detect again and recurse without
    end, which the engine ends with a [RangeError]
    ([detect_has_parser] below shows that this never happens). *)
Definition parseLogRow (row : RawRow) (headers : list string) (format : LogFormat)
  : Completion LogEntry :=
  match rowParser format with
  | Some parse => parse row headers
  | None =>
      detected ← detectLogFormat headers [row];
      if bool_decide (detected <> auto) then
        match rowParser detected with
        | Some parse => parse row headers
        | None => Throw (RangeError "Maximum call stack size exceeded")
        end
      else parseLinuxSyslog row headers
  end.

Definition convertWindowsLog (w : WindowsLog) : LogEntry :=
  mkLogEntry (Time w) (Component w) (Level w) (Content w) (Some "Windows") None None.

End LogParsers.

(** ** CSV ingestion *)

Module CsvParser.
Import JS LogParsers.

(** What PapaParse passes to the [complete] callback: [results.data] and
    [results.meta.fields]. *)
Record ParseResults := mkResults {
  data : list RawRow;
  fields : option (list string)
}.

(** The promise settles one way or the other. *)
Inductive Settled :=
| Resolved (logs : list LogEntry)
| Rejected (errorMessage : string).

(** [JSON.stringify] of a property value and of a row. *)
Definition stringifyValue (v : Value) : string :=
  match v with
  | Str s => quoteJSON s
  | Arr items => "[" +:+ joinWith "," (map quoteJSON items) +:+ "]"
  end.

Definition stringifyRow (row : RawRow) : string :=
  match row with
  | RowNull => "null"
  | RowObject props =>
      "{" +:+ joinWith "," (map (fun kv => quoteJSON kv.1 +:+ ":"
                                         +:+ stringifyValue kv.2) props)
          +:+ "}"
  end.

(** The record substituted for a row whose parser threw; [now] is
    [new Date().toISOString()] at that moment. *)
Definition fallbackEntry (now : string) (row : RawRow) (detectedFormat : LogFormat)
  : LogEntry :=
  mkLogEntry now "unknown" "Info" (stringifyRow row)
             (Some (formatName detectedFormat)) None None.

(** The [try]/[catch] around one row. *)
Definition parseRowOrFallback (now : string) (headers : list string)
    (detectedFormat : LogFormat) (row : RawRow) : LogEntry :=
  match parseLogRow row headers detectedFormat with
  | Normal entry => entry
  | Throw _ => fallbackEntry now row detectedFormat
  end.

(** [log.content && log.content.trim().length > 0]. *)
Definition hasContent (log : LogEntry) : bool :=
  truthy (content log) && (0 <? String.length (trim (content log)))%nat.

(** [parseCSV] from the [complete] callback on; [clock i] is the time read
    while row [i] is handled. *)
Definition parseCSV (clock : nat -> string) (results : ParseResults)
    (format : LogFormat) : Settled :=
  match data results with
  | [] => Rejected "CSV file is empty or has no valid data"
  | _ :: _ =>
      let headers := default [] (fields results) in
      let detection :=
        if bool_decide (format = auto)
        then detectLogFormat headers (take 5 (data results))
        else Normal format in
      match detection with
      | Throw e => Rejected ("Failed to parse CSV data: " +:+ message e)
      | Normal detectedFormat =>
          let logs := imap (fun i row =>
                              parseRowOrFallback (clock i) headers detectedFormat row)
                           (data results) in
          Resolved (filter (fun log => hasContent log = true) logs)
      end
  end.

(** The legacy promise. *)
Inductive SettledLegacy :=
| ResolvedLegacy (logs : list WindowsLog)
| RejectedLegacy (errorMessage : string).

(** The callback of [parseCSVAsWindowsLog]: the record at [index] as a
    legacy record; [String(index + 1)] is the decimal numeral. *)
Definition toWindowsLog (index : nat) (log : LogEntry) : WindowsLog :=
  mkWindowsLog (pretty (index + 1)%nat) (timestamp log) (component log)
               (level log) (content log).

(** [parseCSVAsWindowsLog]: [parseCSV(file)], with the format left at its
    default [auto], then the conversion; a rejection passes through. *)
Definition parseCSVAsWindowsLog (clock : nat -> string) (results : ParseResults)
  : SettledLegacy :=
  match parseCSV clock results auto with
  | Resolved logs => ResolvedLegacy (imap toWindowsLog logs)
  | Rejected errorMessage => RejectedLegacy errorMessage
  end.

End CsvParser.

(** ** The log processor *)

Module LogProcessor.
Import JS LogParsers.

(** A value of the accumulator; [c_component], [c_level] and
    [c_fingerprint] are its [component], [level] and [fingerprint]. *)
Record Cluster := mkCluster {
  c_component : string;
  c_level : string;
  count : Z;
  sample : string;
  c_fingerprint : string
}.

(** The template [`${log.component}-${log.level}`]. *)
Definition keyOf (log : LogEntry) : string :=
  component log +:+ "-" +:+ level log.

(** The accumulator object of the [reduce]: its own properties, in
    insertion order. *)
Definition Clusters := list (string * Cluster).

Fixpoint ownCluster (acc : Clusters) (k : string) : option Cluster :=
  match acc with
  | [] => None
  | (k', c) :: r => if strEq k' k then Some c else ownCluster r k
  end.

(** [c.count++]. *)
Definition increment (c : Cluster) : Cluster :=
  mkCluster (c_component c) (c_level c) (count c + 1) (sample c) (c_fingerprint c).

(** [acc[key].count++] on an own property. *)
Fixpoint bump (acc : Clusters) (k : string) : Clusters :=
  match acc with
  | [] => []
  | (k', c) :: r =>
      if strEq k' k then (k', increment c) :: r else (k', c) :: bump r k
  end.

(** One step of the [reduce].  [acc[key]] is truthy for an own property
    and for a name inherited from [Object.prototype]; in the second case no
    property is created and the increment lands on the inherited value,
    outside [acc] ([keyOf_not_inherited] below: no key is such a name). *)
Definition step (acc : Clusters) (log : LogEntry) : Clusters :=
  let key := keyOf log in
  match ownCluster acc key with
  | Some _ => bump acc key
  | None =>
      if inherited key then acc
      else bump (acc ++ [(key, mkCluster (component log) (level log) 0
                                         (content log) key)]) key
  end.

(** [logs.length > 0 && 'LineId' in logs[0] ? logs.map(convertWindowsLog)
    : logs]: legacy records are converted, unified records are taken as
    they are. *)
Definition unify (input : LogInput) : list LogEntry :=
  match input with
  | Unified logs => logs
  | Legacy [] => []
  | Legacy (w :: ws) => map convertWindowsLog (w :: ws)
  end.

Definition clustersOf (unifiedLogs : list LogEntry) : Clusters :=
  fold_left step unifiedLogs [].

(** A JavaScript number as far as the comparator needs it. *)
Inductive JsNumber :=
| Num (z : Z)
| NaN.

(** What [levelPriority[l]] evaluates to: an own number, a value inherited
    from [Object.prototype] (a function or the prototype object), or
    [undefined]. *)
Inductive Looked :=
| OwnNumber (z : Z)
| InheritedValue
| Missing.

Definition levelPriority (l : string) : Looked :=
  if strEq l "Error" then OwnNumber 3
  else if strEq l "Warning" then OwnNumber 2
  else if strEq l "Info" then OwnNumber 1
  else if inherited l then InheritedValue
  else Missing.

(** [levelPriority[l] || 0]: a number stays, [undefined] becomes 0, and an
    inherited value, being truthy, stays what it is: [None] here. *)
Definition priorityOr0 (l : string) : option Z :=
  match levelPriority l with
  | OwnNumber z => Some z
  | InheritedValue => None
  | Missing => Some 0
  end.

(** Subtraction; a function or object operand converts to [NaN]. *)
Definition minus (a b : option Z) : JsNumber :=
  match a, b with
  | Some x, Some y => Num (x - y)
  | _, _ => NaN
  end.

(** The comparator passed to [sort]. *)
Definition compareClusters (a b : Cluster) : JsNumber :=
  if bool_decide (count b <> count a) then Num (count b - count a)
  else minus (priorityOr0 (c_level b)) (priorityOr0 (c_level a)).

(** SortCompare of ECMAScript: the comparator's result, with [NaN] read
    as +0. *)
Definition sortCompare {A} (cmp : A -> A -> JsNumber) (x y : A) : Z :=
  match cmp x y with
  | Num z => z
  | NaN => 0
  end.

(** [Array.prototype.sort(cmp)].  The sort is stable and compares through
    SortCompare.  When SortCompare orders the elements as a total preorder
    the result is fixed, whatever algorithm the engine runs: the one
    stable sorted arrangement.  That arrangement is computed here by
    insertion, left to right: each element goes, as the pivot, in front of
    the first element of the sorted prefix it compares strictly below.
    When SortCompare does not order the elements so (here: [NaN] among
    three or more clusters of equal count, one of them with a level
    inherited from [Object.prototype]) the order is left to the
    implementation; [sortWith] then still returns a permutation of its
    argument, but not necessarily in the engine's order.  The properties
    below that speak of the order are stated where the order is fixed. *)
Fixpoint insertSorted {A} (cmp : A -> A -> JsNumber) (pivot : A) (sorted : list A)
  : list A :=
  match sorted with
  | [] => [pivot]
  | y :: r => if sortCompare cmp pivot y <? 0 then pivot :: y :: r
              else y :: insertSorted cmp pivot r
  end.

Definition sortWith {A} (cmp : A -> A -> JsNumber) (l : list A) : list A :=
  fold_left (fun sorted pivot => insertSorted cmp pivot sorted) l [].

Definition toDigest (p : Cluster) : LogDigest :=
  mkLogDigest (c_component p) (c_level p) (count p) (sample p) (c_fingerprint p).

(** [processLogs].  [Object.values(clusters)] lists the values in
    insertion order: no key is an array index, since every key holds a
    hyphen ([keyOf_not_array_index] below). *)
Definition processLogs (logs : LogInput) : list LogDigest :=
  let unifiedLogs := unify logs in
  let clusters := clustersOf unifiedLogs in
  let patterns := map snd clusters in
  let sorted := sortWith compareClusters patterns in
  map toDigest (take 100 sorted).

Record Stats := mkStats {
  totalLogs : nat;
  uniquePatterns : nat;
  errorCount : nat;
  warningCount : nat
}.

(** [new Set(iterable)]: the distinct values in order of first
    appearance; [size] is the length. *)
Definition newSet (l : list string) : list string :=
  fold_left (fun s x => if existsb (strEq x) s then s else s ++ [x]) l [].

Definition calculateStats (logs : LogInput) : Stats :=
  let unifiedLogs := unify logs in
  let errorCount :=
    length (filter (fun log => strEq (toLowerCase (level log)) "error" = true) unifiedLogs) in
  let warningCount :=
    length (filter (fun log => strEq (toLowerCase (level log)) "warning" = true) unifiedLogs) in
  let uniquePatterns := length (newSet (map keyOf unifiedLogs)) in
  mkStats (length unifiedLogs) uniquePatterns errorCount warningCount.

End LogProcessor.

(** ** Cleaning the model's answer (lambda handler and server actions) *)

Module LogAnalysis.
Import JS.

Definition newline : ascii := ascii_of_N 10.

(** The rest of [s] after the prefix [p], when [s] starts with [p]. *)
Fixpoint stripPrefix (p s : string) : option string :=
  match p, s with
  | EmptyString, _ => Some s
  | String a p', String b s' => if bool_decide (a = b) then stripPrefix p' s' else None
  | String _ _, EmptyString => None
  end.

(** [s.replace(/^marker\n?/, '')] for a literal [marker]: the marker at
    the start of [s] goes, with one line feed after it when there is
    one. *)
Definition dropFenceStart (marker s : string) : string :=
  match stripPrefix marker s with
  | Some (String c r) => if bool_decide (c = newline) then r else String c r
  | Some EmptyString => EmptyString
  | None => s
  end.

(** [s.replace(/\n?```$/, '')]: the match is tried at each position from
    the left, and succeeds where what remains is the fence, with or
    without a line feed before it. *)
Fixpoint dropFenceEnd (s : string) : string :=
  if strEq s (String newline "```") || strEq s "```" then EmptyString
  else match s with
       | EmptyString => EmptyString
       | String c r => String c (dropFenceEnd r)
       end.

(** Step 5 of the handler, and the same lines of the server actions:
    [text.trim()], then the Markdown fence is taken off. *)
Definition cleanJson (text : string) : string :=
  let jsonText := trim text in
  if startsWith "```json" jsonText
  then dropFenceEnd (dropFenceStart "```json" jsonText)
  else if startsWith "```" jsonText
       then dropFenceEnd (dropFenceStart "```" jsonText)
       else jsonText.

(** An element of the parsed answer.  A number is a finite double, carried
    by its exact rational value. *)
Record AiResponse := mkAiResponse {
  r_index : Q;
  r_humanMeaning : string;
  r_severityScore : Q
}.

Record AISummary := mkAISummary {
  humanMeaning : string;
  severityScore : Q
}.

(** [Math.max(1, Math.min(10, score))]. *)
Definition clampScore (score : Q) : Q := Qmax 1 (Qmin 10 score).

(** The mapping of the answers back to the digest:
    [aiResponses.find(r => r.index === idx + 1) || {pending}], then the
    summary with the score clamped. *)
Definition summarize (digest : list LogDigest) (aiResponses : list AiResponse)
  : list AISummary :=
  imap (fun idx _ =>
          let aiResponse :=
            default (mkAiResponse (inject_Z (Z.of_nat idx + 1)) "Analysis pending..." 5)
                    (find (fun r => Qeq_bool (r_index r) (inject_Z (Z.of_nat idx + 1)))
                          aiResponses) in
          mkAISummary (r_humanMeaning aiResponse)
                      (clampScore (r_severityScore aiResponse)))
       digest.

End LogAnalysis.

(** ** The page: what is shown *)

Module Page.
Import JS LogAnalysis.

(** [AnalyzedLogPattern]: the digest entry with the summary beside it. *)
Record AnalyzedLogPattern := mkPattern {
  entry : LogDigest;
  p_humanMeaning : string;
  p_severityScore : Q;
  totalOccurrences : Z
}.

(** [score || 5] on a number: 0 is falsy. *)
Definition scoreOr5 (score : Q) : Q := if Qeq_bool score 0 then 5 else score.

(** Step 4 of [handleFileUpload]: [aiSummaries[idx]?.humanMeaning ||
    'Analysis pending...'] and [aiSummaries[idx]?.severityScore || 5]. *)
Definition combine (digest : list LogDigest) (aiSummaries : list AISummary)
  : list AnalyzedLogPattern :=
  imap (fun idx d =>
          match aiSummaries !! idx with
          | Some s => mkPattern d (orElse (humanMeaning s) "Analysis pending...")
                                (scoreOr5 (severityScore s)) (frequency d)
          | None => mkPattern d "Analysis pending..." 5 (frequency d)
          end)
       digest.

(** What [formatMap[source] || 'auto'] evaluates to: a format, or, for a
    source that is a property name inherited from [Object.prototype], the
    inherited value. *)
Inductive Shown :=
| ShownFormat (f : LogFormat)
| ShownInherited (name : string).

(** [const source = parsedLogs[0].source || 'unknown'] and the lookup in
    [formatMap]. *)
Definition formatOfSource (source : option string) : Shown :=
  let source := orElse (default "" source) "unknown" in
  if strEq source "Windows" then ShownFormat windows
  else if strEq source "Linux" then ShownFormat linux_syslog
  else if strEq source "Apache" then ShownFormat apache
  else if strEq source "Hadoop" then ShownFormat hadoop
  else if strEq source "Spark" then ShownFormat spark
  else if strEq source "OpenSSH" then ShownFormat openssh
  else if inherited source then ShownInherited source
  else ShownFormat auto.

End Page.

(** * Specification vocabulary *)

Import JS LogParsers CsvParser LogProcessor LogAnalysis Page.

(** ** Substring search *)

(** [Occurs p s]: the word [p] occurs in [s]. *)
Definition Occurs (p s : string) : Prop :=
  exists pre post, s = pre +:+ p +:+ post.

(** [MatchesGroup words s]: what an unanchored alternation of [words]
    matches. *)
Definition MatchesGroup (words : list string) (s : string) : Prop :=
  exists w, w ∈ words /\ Occurs w s.

(** ** The level normaliser *)

Definition errorWords : list string :=
  ["error"; "err"; "critical"; "crit"; "fatal"; "emergency"; "emerg"].
Definition warningWords : list string := ["warn"; "warning"].
Definition infoWords : list string := ["info"; "information"; "notice"].
Definition debugWords : list string := ["debug"; "trace"; "verbose"].

(** The level as the normaliser looks at it: case-folded and trimmed. *)
Definition folded (level : string) : string := trim (toLowerCase level).

(** No pattern group matches. *)
Definition NoWord (level : string) : Prop :=
  ~ MatchesGroup errorWords (folded level) /\
  ~ MatchesGroup warningWords (folded level) /\
  ~ MatchesGroup infoWords (folded level) /\
  ~ MatchesGroup debugWords (folded level).

(** Neither a pattern group nor a numeric code matches. *)
Definition Unmatched (level : string) : Prop :=
  NoWord level /\ folded level ∉ ["0"; "1"; "2"; "3"; "4"; "5"; "6"; "7"].

(** The normaliser as the specification words it, with the last clause as
    the code has it: an unmatched level is returned unchanged when it is not
    empty, and the empty level becomes Info. *)
Inductive NormalizesTo (level : string) : string -> Prop :=
| norm_error :
    MatchesGroup errorWords (folded level) -> NormalizesTo level "Error"
| norm_warning :
    ~ MatchesGroup errorWords (folded level) ->
    MatchesGroup warningWords (folded level) -> NormalizesTo level "Warning"
| norm_info :
    ~ MatchesGroup errorWords (folded level) ->
    ~ MatchesGroup warningWords (folded level) ->
    MatchesGroup infoWords (folded level) -> NormalizesTo level "Info"
| norm_debug :
    ~ MatchesGroup errorWords (folded level) ->
    ~ MatchesGroup warningWords (folded level) ->
    ~ MatchesGroup infoWords (folded level) ->
    MatchesGroup debugWords (folded level) -> NormalizesTo level "Debug"
| norm_code_error :
    NoWord level -> folded level ∈ ["0"; "1"; "2"] -> NormalizesTo level "Error"
| norm_code_warning :
    NoWord level -> folded level ∈ ["3"; "4"] -> NormalizesTo level "Warning"
| norm_code_info :
    NoWord level -> folded level ∈ ["5"; "6"] -> NormalizesTo level "Info"
| norm_code_debug :
    NoWord level -> folded level = "7" -> NormalizesTo level "Debug"
| norm_unchanged :
    Unmatched level -> level <> "" -> NormalizesTo level level
| norm_empty :
    level = "" -> NormalizesTo level "Info".

(** ** The format detector *)

(** Some header, case-folded, is [name]. *)
Definition HasHeader (headers : list string) (name : string) : Prop :=
  exists h, h ∈ headers /\ toLowerCase h = name.

Definition hasHeaderb (headers : list string) (name : string) : bool :=
  existsb (fun h => strEq h name) (map toLowerCase headers).

Definition WindowsRule (hs : list string) : Prop :=
  HasHeader hs "lineid" /\ HasHeader hs "component" /\ HasHeader hs "level".
Definition LinuxRule (hs : list string) : Prop :=
  HasHeader hs "timestamp" /\ (HasHeader hs "hostname" \/ HasHeader hs "host").
Definition ApacheRule (hs : list string) : Prop :=
  HasHeader hs "remotehost" \/ HasHeader hs "request" \/ HasHeader hs "status".
Definition HadoopRule (hs : list string) : Prop :=
  HasHeader hs "logtime" /\ (HasHeader hs "level" \/ HasHeader hs "priority").
Definition SparkRule (hs : list string) : Prop :=
  HasHeader hs "timestamp" /\ HasHeader hs "logger".

(** The name under which the first column is read: [headers[0] || '']. *)
Definition firstColumn (headers : list string) : string :=
  orElse (default "" (head headers)) "".

Definition MentionsSsh (v : string) : Prop :=
  Occurs "sshd" (toLowerCase v) \/ Occurs "connection" (toLowerCase v)
  \/ Occurs "authentication" (toLowerCase v).

(** A sampled row whose first column mentions one of the OpenSSH words,
    and one whose first column does not. *)
Definition SshRow (headers : list string) (row : RawRow) : Prop :=
  exists props, row = RowObject props
                /\ MentionsSsh (fieldText props (firstColumn headers)).
Definition PlainRow (headers : list string) (row : RawRow) : Prop :=
  exists props, row = RowObject props
                /\ ~ MentionsSsh (fieldText props (firstColumn headers)).

(** The detector as the specification lists its rules: each rule applies
    only when no earlier one does. *)
Inductive Detects (headers : list string) (rows : list RawRow) : LogFormat -> Prop :=
| det_windows :
    WindowsRule headers -> Detects headers rows windows
| det_linux :
    ~ WindowsRule headers -> LinuxRule headers -> Detects headers rows linux_syslog
| det_apache :
    ~ WindowsRule headers -> ~ LinuxRule headers -> ApacheRule headers ->
    Detects headers rows apache
| det_hadoop :
    ~ WindowsRule headers -> ~ LinuxRule headers -> ~ ApacheRule headers ->
    HadoopRule headers -> Detects headers rows hadoop
| det_spark :
    ~ WindowsRule headers -> ~ LinuxRule headers -> ~ ApacheRule headers ->
    ~ HadoopRule headers -> SparkRule headers -> Detects headers rows spark
| det_openssh before row after :
    ~ WindowsRule headers -> ~ LinuxRule headers -> ~ ApacheRule headers ->
    ~ HadoopRule headers -> ~ SparkRule headers ->
    rows = before ++ row :: after ->
    Forall (PlainRow headers) before -> SshRow headers row ->
    Detects headers rows openssh
| det_auto :
    ~ WindowsRule headers -> ~ LinuxRule headers -> ~ ApacheRule headers ->
    ~ HadoopRule headers -> ~ SparkRule headers ->
    Forall (PlainRow headers) rows ->
    Detects headers rows auto.

(** The single-row test of the OpenSSH rule. *)
Definition sshTest (headers : list string) (row : RawRow) : Completion bool :=
  v ← readField row (orElse (default "" (head headers)) "");
  let content := toLowerCase v in
  Normal (includes content "sshd" || includes content "connection"
          || includes content "authentication").

(** ** The row parsers *)

(** What [getValue(key, alt)] returns on an object row: the text of the
    property named by the first header that equals [key] or [alt] up to
    case, or by [key] itself when there is no such header. *)
Definition valueOf (props : list (string * Value)) (headers : list string)
    (key alt : string) : string :=
  fieldText props
    (headerOr (find (fun h => strEq (toLowerCase h) (toLowerCase key)
                              || strEq (toLowerCase h) (toLowerCase (orElse alt "")))
                    headers) key).

(** The same for the one-argument [getValue] of the Windows parser. *)
Definition valueOf1 (props : list (string * Value)) (headers : list string)
    (key : string) : string :=
  fieldText props
    (headerOr (find (fun h => strEq (toLowerCase h) (toLowerCase key)) headers) key).

(** The Linux syslog parser finds no component, respectively no level. *)
Definition NoComponentFound (props : list (string * Value)) (headers : list string) : Prop :=
  valueOf props headers "program" "service" = ""
  /\ valueOf props headers "component" "daemon" = ""
  /\ valueOf props headers "logger" "" = "".
Definition NoLevelFound (props : list (string * Value)) (headers : list string) : Prop :=
  valueOf props headers "level" "priority" = ""
  /\ valueOf props headers "severity" "" = "".

(** What each parser with a fallback or a value of its own does for the
    component and the level of the record [e] it returns on the object
    row [props]: the Linux syslog, Hadoop and Spark parsers put a name of
    their own where they find no component and Info where they find no
    level; the Apache and OpenSSH parsers set the component themselves and
    the level to one of three. *)
Definition SuppliesFallbacks (format : LogFormat) (props : list (string * Value))
    (headers : list string) (e : LogEntry) : Prop :=
  match format with
  | linux_syslog =>
      (NoComponentFound props headers -> component e = "unknown")
      /\ (NoLevelFound props headers -> level e = "Info")
  | hadoop =>
      (valueOf props headers "logger" "component" = "" -> component e = "hadoop")
      /\ (valueOf props headers "level" "priority" = "" -> level e = "Info")
  | spark =>
      (valueOf props headers "logger" "component" = "" -> component e = "spark")
      /\ (valueOf props headers "level" "priority" = "" -> level e = "Info")
  | apache => component e = "apache" /\ level e ∈ ["Error"; "Warning"; "Info"]
  | openssh => component e = "sshd" /\ level e ∈ ["Error"; "Warning"; "Info"]
  | windows | openstack | thunderbird | auto => True
  end.

(** An object row as PapaParse builds it under the header line [names]:
    its own property names are among [names], apart from
    [__parsed_extra], which holds the surplus fields of a line longer than
    the header line. *)
Definition BuiltUnder (names : list string) (row : RawRow) : Prop :=
  exists props, row = RowObject props
                /\ forall k v, (k, v) ∈ props -> k ∈ names \/ k = "__parsed_extra".

(** The records of the generic path under headers that name none of the
    columns the parsers look for: the Linux syslog parser's and the OpenSSH
    parser's, both with empty content. *)
Definition genericSyslogRecord : LogEntry :=
  mkLogEntry "" "unknown" "Info" "" (Some "Linux") (Some "") (Some "").
Definition genericSshRecord : LogEntry :=
  mkLogEntry "" "sshd" "Info" "" (Some "OpenSSH") (Some "") None.

(** Ingestion resolves to one record per row, each with the serialised
    row as its non-empty content and with the component unknown. *)
Definition YieldsSerializedRows (clock : nat -> string) (results : ParseResults) : Prop :=
  exists logs,
    parseCSV clock results auto = Resolved logs
    /\ Forall2 (fun row log => content log = stringifyRow row
                               /\ content log <> ""
                               /\ component log = "unknown")
               (data results) logs.

(** ** The digest builder and the statistics *)

(** The distinct fingerprints of a record list. *)
Definition distinctKeys (logs : list LogEntry) : gset string :=
  list_to_set (map keyOf logs).

(** The same read off the input itself, with the fingerprint written out:
    the component and the level of a record joined by a hyphen. *)
Definition fingerprintsIn (logs : list LogEntry) : gset string :=
  list_to_set (map (fun log => component log +:+ "-" +:+ level log) logs).

(** The number of records and the distinct fingerprints of an argument of
    either kind; a legacy record has them in [Component] and [Level]. *)
Definition recordCount (input : LogInput) : nat :=
  match input with
  | Unified logs => length logs
  | Legacy logs => length logs
  end.

Definition fingerprintsOf (input : LogInput) : gset string :=
  match input with
  | Unified logs => fingerprintsIn logs
  | Legacy logs => list_to_set (map (fun w => Component w +:+ "-" +:+ Level w) logs)
  end.

(** How many records carry the fingerprint [k]. *)
Definition occurrences (k : string) (logs : list LogEntry) : Z :=
  Z.of_nat (length (filter (fun log => keyOf log = k) logs)).


(** The first record, in input order, that carries the fingerprint [k]. *)
Definition firstWith (k : string) (logs : list LogEntry) : option LogEntry :=
  find (fun log => strEq (keyOf log) k) logs.

(** The cluster [c] summarises the records of [seen] that carry [k]. *)
Definition Summarises (seen : list LogEntry) (k : string) (c : Cluster) : Prop :=
  c_fingerprint c = k
  /\ count c = occurrences k seen
  /\ exists first, firstWith k seen = Some first
                   /\ c_component c = component first
                   /\ c_level c = level first
                   /\ sample c = content first.

(** The accumulator [acc] is the clustering of the records [seen]. *)
Definition ClustersFor (seen : list LogEntry) (acc : Clusters) : Prop :=
  NoDup (map fst acc)
  /\ (forall k, k ∈ map fst acc <-> k ∈ map keyOf seen)
  /\ (forall k c, (k, c) ∈ acc -> Summarises seen k c).

(** The priority table of the specification: Error 3, Warning 2, Info 1,
    anything else 0. *)
Definition levelRank (l : string) : Z :=
  if strEq l "Error" then 3
  else if strEq l "Warning" then 2
  else if strEq l "Info" then 1
  else 0.

(** The ranking the specification asks of two neighbours of the digest. *)
Definition RankedBefore (a b : LogDigest) : Prop :=
  frequency a > frequency b
  \/ (frequency a = frequency b /\ levelRank (d_level a) >= levelRank (d_level b)).

Definition AdjacentRanked (digest : list LogDigest) : Prop :=
  forall i a b, digest !! i = Some a -> digest !! S i = Some b -> RankedBefore a b.

(** The same ranking on clusters. *)
Definition Precedes (a b : Cluster) : Prop :=
  count a > count b
  \/ (count a = count b /\ levelRank (c_level a) >= levelRank (c_level b)).

(** Equality of two strings up to case. *)
Definition SameIgnoringCase (a b : string) : Prop :=
  toLowerCase a = toLowerCase b.

#[global] Instance SameIgnoringCase_dec (a b : string) : Decision (SameIgnoringCase a b).
Proof. unfold SameIgnoringCase. apply _. Defined.

(** The level of the cluster is not a property name inherited from
    [Object.prototype]. *)
Definition PlainLevel (c : Cluster) : Prop := inherited (c_level c) = false.

(** No level of the list is such a name: on these lists the comparator of
    the sort returns numbers only and orders the clusters as a total
    preorder. *)
Definition PlainLevels (logs : list LogEntry) : Prop :=
  forall log, log ∈ logs -> inherited (level log) = false.

(** ** Further vocabulary: ingestion *)


(** The row is an object. *)
Definition IsObject (row : RawRow) : Prop := exists props, row = RowObject props.

(** Some header rule of the detector applies. *)
Definition SomeHeaderRule (hs : list string) : Prop :=
  WindowsRule hs \/ LinuxRule hs \/ ApacheRule hs \/ HadoopRule hs \/ SparkRule hs.

(** The level is one the normaliser has produced. *)
Definition Normalized (l : string) : Prop := exists raw, l = normalizeLevel raw.

(** ** Further vocabulary: the digest *)

Definition sumZ (l : list Z) : Z := foldr Z.add 0 l.

(** The sum of the frequencies of a digest. *)
Definition totalFrequency (digest : list LogDigest) : Z :=
  sumZ (map frequency digest).

(** What the digest builder reads of a record. *)
Definition essence (log : LogEntry) : string * string * string :=
  (component log, level log, content log).

(** The counts of the clusters of an accumulator. *)
Definition counts (acc : Clusters) : list Z := map count (map snd acc).

(** A record list with 101 distinct fingerprints, the first of them
    carried by two records. *)
Definition manyPatterns : list LogEntry :=
  mkLogEntry "" "svc0" "Info" "again" None None None
  :: map (fun n => mkLogEntry "" ("svc" +:+ pretty n) "Info" "once" None None None)
         (seq 0 101).

(** ** Further vocabulary: the model's answer *)

(** The string is made of white space only. *)
Fixpoint allWhite (s : string) : bool :=
  match s with
  | EmptyString => true
  | String c r => isWhiteSpace c && allWhite r
  end.

(** The payload [j] in a Markdown fence with the language tag [lang],
    each fence on a line of its own. *)
Definition fenced (lang j : string) : string :=
  "```" +:+ lang +:+ String newline (j +:+ String newline "```").

(** A score between 1 and 10. *)
Definition InRange (score : Q) : Prop := (1 <= score)%Q /\ (score <= 10)%Q.

(** ** Further vocabulary: patterns seen once *)

(** The digest entry of a record that is the only one of its pattern. *)
Definition seenOnce (log : LogEntry) : LogDigest :=
  mkLogDigest (component log) (level log) 1 (content log) (keyOf log).

(** * Properties *)

(** ** Substring search *)

Lemma strEq_true (a b : string) : strEq a b = true <-> a = b.
Proof. unfold strEq. apply bool_decide_eq_true. Qed.

Lemma strEq_false (a b : string) : strEq a b = false <-> a <> b.
Proof. unfold strEq. apply bool_decide_eq_false. Qed.

Lemma strEq_refl (a : string) : strEq a a = true.
Proof. by apply strEq_true. Qed.

Lemma startsWith_spec (p s : string) :
  startsWith p s = true <-> exists post, s = p +:+ post.
Proof.
  revert s. induction p as [|a p IH]; intros s; simpl.
  - split; [intros _; by exists s | done].
  - destruct s as [|b s]; simpl.
    + split; [done | intros [post H]; discriminate].
    + rewrite andb_true_iff, bool_decide_eq_true, IH. split.
      * intros [-> [post ->]]. by exists post.
      * intros [post H]. injection H as -> ->. eauto.
Qed.

Lemma includes_spec (s p : string) : includes s p = true <-> Occurs p s.
Proof.
  unfold Occurs. induction s as [|c s IH].
  - cbn [includes]. rewrite orb_false_r, startsWith_spec. split.
    + intros [post H]. by exists "", post.
    + intros [pre [post H]]. destruct pre; [by exists post | discriminate].
  - cbn [includes]. rewrite orb_true_iff, startsWith_spec, IH. split.
    + intros [[post H] | [pre [post H]]].
      * by exists "", post.
      * exists (String c pre), post. simpl. by rewrite H.
    + intros [[|a pre] [post H]].
      * left. by exists post.
      * right. simpl in H. injection H as -> H. by exists pre, post.
Qed.

Lemma matchAny_spec (words : list string) (s : string) :
  matchAny words s = true <-> MatchesGroup words s.
Proof.
  unfold matchAny, MatchesGroup. rewrite existsb_exists. split.
  - intros [w [Hin Hw]]. exists w. split; [by apply list_elem_of_In | by apply includes_spec].
  - intros [w [Hin Hw]]. exists w. split; [by apply list_elem_of_In | by apply includes_spec].
Qed.

Lemma matchAny_false (words : list string) (s : string) :
  matchAny words s = false <-> ~ MatchesGroup words s.
Proof.
  rewrite <- matchAny_spec. destruct (matchAny words s); split; congruence.
Qed.

(** ** The level normaliser *)

(** Some levels, among them the numeric codes 3 and 0 of the
    specification's scenario. *)
Example normalizeLevel_samples :
  map LogParsers.normalizeLevel ["3"; "0"; " WARN "; "Terror"; "verbose"; ""; "  "; "custom"]
  = ["Warning"; "Error"; "Warning"; "Error"; "Debug"; "Info"; "  "; "custom"].
Proof. reflexivity. Qed.

Lemma normalizeLevel_eq (level : string) :
  normalizeLevel level =
    if matchAny errorWords (folded level) then "Error"
    else if matchAny warningWords (folded level) then "Warning"
    else if matchAny infoWords (folded level) then "Info"
    else if matchAny debugWords (folded level) then "Debug"
    else if strEq (folded level) "0" || strEq (folded level) "1"
            || strEq (folded level) "2" then "Error"
    else if strEq (folded level) "3" || strEq (folded level) "4" then "Warning"
    else if strEq (folded level) "5" || strEq (folded level) "6" then "Info"
    else if strEq (folded level) "7" then "Debug"
    else orElse level "Info".
Proof. reflexivity. Qed.

Lemma orElse_nonempty (a b : string) : a <> "" -> orElse a b = a.
Proof.
  intros H. unfold orElse, truthy. by rewrite (proj2 (strEq_false a "") H).
Qed.

Ltac in_list := rewrite ?elem_of_cons; auto 12.

Lemma NoWord_matchAny (level : string) :
  NoWord level <->
  matchAny errorWords (folded level) = false /\
  matchAny warningWords (folded level) = false /\
  matchAny infoWords (folded level) = false /\
  matchAny debugWords (folded level) = false.
Proof. unfold NoWord. by rewrite !matchAny_false. Qed.

(** The function satisfies the relation. *)
Lemma normalizeLevel_sound (level : string) :
  NormalizesTo level (normalizeLevel level).
Proof.
  rewrite normalizeLevel_eq.
  destruct (matchAny errorWords (folded level)) eqn:He.
  { apply norm_error. by apply matchAny_spec. }
  destruct (matchAny warningWords (folded level)) eqn:Hw.
  { apply norm_warning; [by apply matchAny_false | by apply matchAny_spec]. }
  destruct (matchAny infoWords (folded level)) eqn:Hi.
  { apply norm_info; [by apply matchAny_false .. | by apply matchAny_spec]. }
  destruct (matchAny debugWords (folded level)) eqn:Hd.
  { apply norm_debug; [by apply matchAny_false .. | by apply matchAny_spec]. }
  assert (Hno : NoWord level) by (by apply NoWord_matchAny).
  destruct (strEq (folded level) "0") eqn:H0.
  { apply norm_code_error; [done|]. apply strEq_true in H0 as ->. in_list. }
  destruct (strEq (folded level) "1") eqn:H1.
  { apply norm_code_error; [done|]. apply strEq_true in H1 as ->. in_list. }
  destruct (strEq (folded level) "2") eqn:H2.
  { apply norm_code_error; [done|]. apply strEq_true in H2 as ->. in_list. }
  destruct (strEq (folded level) "3") eqn:H3.
  { apply norm_code_warning; [done|]. apply strEq_true in H3 as ->. in_list. }
  destruct (strEq (folded level) "4") eqn:H4.
  { apply norm_code_warning; [done|]. apply strEq_true in H4 as ->. in_list. }
  destruct (strEq (folded level) "5") eqn:H5.
  { apply norm_code_info; [done|]. apply strEq_true in H5 as ->. in_list. }
  destruct (strEq (folded level) "6") eqn:H6.
  { apply norm_code_info; [done|]. apply strEq_true in H6 as ->. in_list. }
  destruct (strEq (folded level) "7") eqn:H7.
  { apply norm_code_debug; [done|]. by apply strEq_true in H7. }
  cbn [orb].
  destruct (decide (level = "")) as [->|Hne].
  - by apply norm_empty.
  - rewrite orElse_nonempty by done. apply norm_unchanged; [|done].
    split; [done|]. apply strEq_false in H0, H1, H2, H3, H4, H5, H6, H7.
    rewrite !not_elem_of_cons. repeat split; try done. apply not_elem_of_nil.
Qed.

(** The relation determines the result. *)
Lemma normalizeLevel_complete (level out : string) :
  NormalizesTo level out -> normalizeLevel level = out.
Proof.
  intros H. rewrite normalizeLevel_eq.
  destruct H as [He | He Hw | He Hw Hi | He Hw Hi Hd
                 | Hno Hc | Hno Hc | Hno Hc | Hno Hc | [Hno Hc] Hne | ->].
  - apply matchAny_spec in He. by rewrite He.
  - apply matchAny_false in He. apply matchAny_spec in Hw. by rewrite He, Hw.
  - apply matchAny_false in He, Hw. apply matchAny_spec in Hi.
    by rewrite He, Hw, Hi.
  - apply matchAny_false in He, Hw, Hi. apply matchAny_spec in Hd.
    by rewrite He, Hw, Hi, Hd.
  - apply NoWord_matchAny in Hno as (-> & -> & -> & ->).
    repeat (apply elem_of_cons in Hc as [-> | Hc]; [reflexivity|]).
    by apply elem_of_nil in Hc.
  - apply NoWord_matchAny in Hno as (-> & -> & -> & ->).
    repeat (apply elem_of_cons in Hc as [-> | Hc]; [reflexivity|]).
    by apply elem_of_nil in Hc.
  - apply NoWord_matchAny in Hno as (-> & -> & -> & ->).
    repeat (apply elem_of_cons in Hc as [-> | Hc]; [reflexivity|]).
    by apply elem_of_nil in Hc.
  - apply NoWord_matchAny in Hno as (-> & -> & -> & ->). by rewrite Hc.
  - apply NoWord_matchAny in Hno as (-> & -> & -> & ->).
    assert (forall c, c ∈ ["0"; "1"; "2"; "3"; "4"; "5"; "6"; "7"] ->
                      strEq (folded level) c = false) as Hf.
    { intros c Hin. apply strEq_false. intros Heq. by subst c. }
    rewrite !Hf by in_list. cbn [orb]. by apply orElse_nonempty.
  - reflexivity.
Qed.

(** C3 (as amended).  For every level string, the normaliser returns what
    the specification's rule gives: Error, Warning, Info or Debug on a match
    of the corresponding word group in the case-folded, trimmed level, the
    groups being tried in that order; failing that, the canonical level of
    the numeric code 0-7; failing that, the input itself when it is not
    empty, and Info when it is empty.  In particular level 3 gives Warning
    and level 0 gives Error. *)
Theorem normalizeLevel_refines_spec :
  (forall level out : string, NormalizesTo level out <-> normalizeLevel level = out)
  /\ normalizeLevel "3" = "Warning"
  /\ normalizeLevel "0" = "Error".
Proof.
  split; [|split; reflexivity].
  intros level out. split.
  - apply normalizeLevel_complete.
  - intros <-. apply normalizeLevel_sound.
Qed.

(** C3 (as stated) fails at the empty string: no word group and no numeric
    code matches it, and the normaliser returns Info, not the input. *)
Lemma normalizeLevel_empty_not_unchanged :
  Unmatched "" /\ normalizeLevel "" = "Info" /\ normalizeLevel "" <> "".
Proof.
  split; [|split; [reflexivity | discriminate]].
  split.
  - apply NoWord_matchAny. by vm_compute.
  - rewrite !not_elem_of_cons. repeat split; try done. apply not_elem_of_nil.
Qed.

(** ** The format detector *)

Lemma hasHeaderb_spec (headers : list string) (name : string) :
  hasHeaderb headers name = true <-> HasHeader headers name.
Proof.
  unfold hasHeaderb, HasHeader. rewrite existsb_exists. split.
  - intros [x [Hin Hx]]. apply in_map_iff in Hin as [h [<- Hin]].
    exists h. split; [by apply list_elem_of_In | by apply strEq_true].
  - intros [h [Hin <-]]. exists (toLowerCase h). split.
    + apply in_map. by apply list_elem_of_In.
    + apply strEq_refl.
Qed.

Lemma detectLogFormat_eq (headers : list string) (rows : list RawRow) :
  detectLogFormat headers rows =
    if hasHeaderb headers "lineid" && hasHeaderb headers "component"
       && hasHeaderb headers "level" then Normal windows
    else if hasHeaderb headers "timestamp"
            && (hasHeaderb headers "hostname" || hasHeaderb headers "host")
         then Normal linux_syslog
    else if hasHeaderb headers "remotehost" || hasHeaderb headers "request"
            || hasHeaderb headers "status" then Normal apache
    else if hasHeaderb headers "logtime"
            && (hasHeaderb headers "level" || hasHeaderb headers "priority")
         then Normal hadoop
    else if hasHeaderb headers "timestamp" && hasHeaderb headers "logger"
         then Normal spark
    else isSsh ← someM (sshTest headers) rows;
         if (isSsh : bool) then Normal openssh else Normal auto.
Proof. reflexivity. Qed.

Lemma WindowsRule_b hs :
  hasHeaderb hs "lineid" && hasHeaderb hs "component" && hasHeaderb hs "level" = true
  <-> WindowsRule hs.
Proof. unfold WindowsRule. rewrite !andb_true_iff, !hasHeaderb_spec. tauto. Qed.

Lemma LinuxRule_b hs :
  hasHeaderb hs "timestamp" && (hasHeaderb hs "hostname" || hasHeaderb hs "host") = true
  <-> LinuxRule hs.
Proof. unfold LinuxRule. by rewrite andb_true_iff, orb_true_iff, !hasHeaderb_spec. Qed.

Lemma ApacheRule_b hs :
  hasHeaderb hs "remotehost" || hasHeaderb hs "request" || hasHeaderb hs "status" = true
  <-> ApacheRule hs.
Proof. unfold ApacheRule. rewrite !orb_true_iff, !hasHeaderb_spec. tauto. Qed.

Lemma HadoopRule_b hs :
  hasHeaderb hs "logtime" && (hasHeaderb hs "level" || hasHeaderb hs "priority") = true
  <-> HadoopRule hs.
Proof. unfold HadoopRule. by rewrite andb_true_iff, orb_true_iff, !hasHeaderb_spec. Qed.

Lemma SparkRule_b hs :
  hasHeaderb hs "timestamp" && hasHeaderb hs "logger" = true <-> SparkRule hs.
Proof. unfold SparkRule. by rewrite andb_true_iff, !hasHeaderb_spec. Qed.

Lemma bool_false_iff (b : bool) (P : Prop) : (b = true <-> P) -> (b = false <-> ~ P).
Proof.
  intros [H1 H2]. destruct b; split; intros H; try done.
  - destruct H. by apply H1.
  - intros HP. by apply H2 in HP.
Qed.

Lemma MentionsSsh_b (v : string) :
  includes (toLowerCase v) "sshd" || includes (toLowerCase v) "connection"
  || includes (toLowerCase v) "authentication" = true <-> MentionsSsh v.
Proof. unfold MentionsSsh. rewrite !orb_true_iff, !includes_spec. tauto. Qed.

Lemma sshTest_true headers row : sshTest headers row = Normal true <-> SshRow headers row.
Proof.
  unfold sshTest, SshRow. fold (firstColumn headers).
  destruct row as [props|]; simpl.
  - split.
    + intros [= H]. exists props. split; [done|]. by apply MentionsSsh_b.
    + intros [props' [[= <-] H]]. f_equal. by apply MentionsSsh_b.
  - split; [done | by intros [props [? _]]].
Qed.

Lemma sshTest_false headers row : sshTest headers row = Normal false <-> PlainRow headers row.
Proof.
  unfold sshTest, PlainRow. fold (firstColumn headers).
  destruct row as [props|]; simpl.
  - split.
    + intros [= H]. exists props. split; [done|].
      rewrite <- MentionsSsh_b. by rewrite H.
    + intros [props' [[= <-] H]]. f_equal. apply not_true_is_false.
      by rewrite MentionsSsh_b.
  - split; [done | by intros [props [? _]]].
Qed.

Lemma someM_true {A} (f : A -> Completion bool) (rows : list A) :
  someM f rows = Normal true <->
  exists before row after,
    rows = before ++ row :: after
    /\ Forall (fun r => f r = Normal false) before /\ f row = Normal true.
Proof.
  induction rows as [|r rows IH]; simpl.
  - split; [done|]. intros (before & row & after & H & _). by destruct before.
  - destruct (f r) as [[|]|e] eqn:Hr; simpl.
    + split; [intros _ | done]. by exists [], r, rows.
    + rewrite IH. split.
      * intros (before & row & after & -> & Hb & Hrow).
        exists (r :: before), row, after. by repeat split; [constructor|].
      * intros ([|r' before] & row & after & Heq & Hb & Hrow);
          simpl in Heq; injection Heq as <- ->; [congruence|].
        apply Forall_cons in Hb as [_ Hb]. by exists before, row, after.
    + split; [done|].
      intros ([|r' before] & row & after & Heq & Hb & Hrow);
        simpl in Heq; injection Heq as <- ->; [congruence|].
      apply Forall_cons in Hb as [Hb _]. congruence.
Qed.

Lemma someM_false {A} (f : A -> Completion bool) (rows : list A) :
  someM f rows = Normal false <-> Forall (fun r => f r = Normal false) rows.
Proof.
  induction rows as [|r rows IH]; simpl.
  - split; [by constructor | done].
  - rewrite Forall_cons. destruct (f r) as [[|]|e] eqn:Hr; simpl.
    + split; [done | by intros [? _]].
    + rewrite IH. tauto.
    + split; [done | by intros [? _]].
Qed.

(** Turns a hypothesis that a header rule does not apply into the value of
    its boolean test. *)
Ltac rule_off H :=
  first [ apply (proj2 (bool_false_iff _ _ (WindowsRule_b _))) in H
        | apply (proj2 (bool_false_iff _ _ (LinuxRule_b _))) in H
        | apply (proj2 (bool_false_iff _ _ (ApacheRule_b _))) in H
        | apply (proj2 (bool_false_iff _ _ (HadoopRule_b _))) in H
        | apply (proj2 (bool_false_iff _ _ (SparkRule_b _))) in H ].

(** What the detector returns satisfies the rule list. *)
Lemma detectLogFormat_sound headers rows f :
  detectLogFormat headers rows = Normal f -> Detects headers rows f.
Proof.
  rewrite detectLogFormat_eq.
  destruct (_ && _ && _) eqn:Hw.
  { intros [= <-]. apply det_windows. by apply WindowsRule_b. }
  apply (proj1 (bool_false_iff _ _ (WindowsRule_b headers))) in Hw.
  destruct (_ && (_ || _)) eqn:Hl.
  { intros [= <-]. apply det_linux; [done | by apply LinuxRule_b]. }
  apply (proj1 (bool_false_iff _ _ (LinuxRule_b headers))) in Hl.
  destruct (_ || _ || _) eqn:Ha.
  { intros [= <-]. apply det_apache; [done .. | by apply ApacheRule_b]. }
  apply (proj1 (bool_false_iff _ _ (ApacheRule_b headers))) in Ha.
  destruct (_ && (_ || _)) eqn:Hh.
  { intros [= <-]. apply det_hadoop; [done .. | by apply HadoopRule_b]. }
  apply (proj1 (bool_false_iff _ _ (HadoopRule_b headers))) in Hh.
  destruct (_ && _) eqn:Hs.
  { intros [= <-]. apply det_spark; [done .. | by apply SparkRule_b]. }
  apply (proj1 (bool_false_iff _ _ (SparkRule_b headers))) in Hs.
  destruct (someM (sshTest headers) rows) as [[|]|e] eqn:Hsome; simpl; [| |done].
  - intros [= <-]. apply someM_true in Hsome as (before & row & after & -> & Hb & Hr).
    apply (det_openssh _ _ before row after); try done.
    + eapply Forall_impl; [exact Hb|]. intros r. apply sshTest_false.
    + by apply sshTest_true.
  - intros [= <-]. apply det_auto; try done.
    apply someM_false in Hsome. eapply Forall_impl; [exact Hsome|].
    intros r. apply sshTest_false.
Qed.

(** The rule list determines what the detector returns. *)
Lemma detectLogFormat_complete headers rows f :
  Detects headers rows f -> detectLogFormat headers rows = Normal f.
Proof.
  intros H. rewrite detectLogFormat_eq.
  destruct H as [Hw | Hw Hl | Hw Hl Ha | Hw Hl Ha Hh | Hw Hl Ha Hh Hs
                 | before row after Hw Hl Ha Hh Hs Heq Hb Hr | Hw Hl Ha Hh Hs Hall].
  - apply WindowsRule_b in Hw. by rewrite Hw.
  - rule_off Hw.
    apply LinuxRule_b in Hl. by rewrite Hw, Hl.
  - rule_off Hw. rule_off Hl.
    apply ApacheRule_b in Ha. by rewrite Hw, Hl, Ha.
  - rule_off Hw. rule_off Hl. rule_off Ha.
    apply HadoopRule_b in Hh. by rewrite Hw, Hl, Ha, Hh.
  - rule_off Hw. rule_off Hl. rule_off Ha. rule_off Hh.
    apply SparkRule_b in Hs. by rewrite Hw, Hl, Ha, Hh, Hs.
  - rule_off Hw. rule_off Hl. rule_off Ha. rule_off Hh. rule_off Hs.
    rewrite Hw, Hl, Ha, Hh, Hs.
    assert (someM (sshTest headers) rows = Normal true) as ->; [|done].
    apply someM_true. exists before, row, after. repeat split; [done | | by apply sshTest_true].
    eapply Forall_impl; [exact Hb|]. intros r. apply sshTest_false.
  - rule_off Hw. rule_off Hl. rule_off Ha. rule_off Hh. rule_off Hs.
    rewrite Hw, Hl, Ha, Hh, Hs.
    assert (someM (sshTest headers) rows = Normal false) as ->; [|done].
    apply someM_false. eapply Forall_impl; [exact Hall|]. intros r. apply sshTest_false.
Qed.

(** C9.  The detector returns the format of the first rule that applies, in
    the order Windows, Linux syslog, Apache, Hadoop, Spark, OpenSSH content
    check, unknown, the headers being compared case-folded; and headers that
    contain lineid, component and level give Windows whatever else they
    contain and whatever the sampled rows are. *)
Theorem detectLogFormat_first_match :
  (forall headers rows f,
      Detects headers rows f <-> detectLogFormat headers rows = Normal f)
  /\ (forall headers rows,
         HasHeader headers "lineid" -> HasHeader headers "component" ->
         HasHeader headers "level" ->
         detectLogFormat headers rows = Normal windows).
Proof.
  split.
  - intros headers rows f. split.
    + apply detectLogFormat_complete.
    + apply detectLogFormat_sound.
  - intros headers rows H1 H2 H3. apply detectLogFormat_complete.
    by apply det_windows.
Qed.

(** Headers on which the Windows, the Apache and the Spark rule all apply:
    the detector answers Windows. *)
Lemma detectLogFormat_first_match_witness :
  detectLogFormat ["LineId"; "Component"; "Level"; "Status"; "Timestamp"; "Logger"]
                  [RowObject [("LineId", Str "1"); ("Status", Str "500")]]
  = Normal windows.
Proof.
  apply (proj2 detectLogFormat_first_match).
  - exists "LineId". split; [in_list | reflexivity].
  - exists "Component". split; [in_list | reflexivity].
  - exists "Level". split; [in_list | reflexivity].
Defined.

(** ** The row parsers *)

Lemma getValue_object props headers key alt :
  getValue (RowObject props) headers key alt = Normal (valueOf props headers key alt).
Proof. reflexivity. Qed.

Lemma getValue1_object props headers key :
  getValue1 (RowObject props) headers key = Normal (valueOf1 props headers key).
Proof. reflexivity. Qed.

Lemma orElseM_Normal (a b : string) :
  orElseM (Normal a) (Normal b) = Normal (orElse a b).
Proof. unfold orElseM, orElse. simpl. by destruct (truthy a). Qed.

Lemma orElse_default_nonempty (a b : string) : b <> "" -> orElse a b <> "".
Proof.
  intros Hb. unfold orElse, truthy. destruct (strEq a "") eqn:Ha; simpl; [done|].
  by apply strEq_false in Ha.
Qed.

Lemma normalizeLevel_nonempty (level : string) : normalizeLevel level <> "".
Proof.
  rewrite normalizeLevel_eq.
  repeat (match goal with |- context [if ?b then _ else _] => destruct b end;
          [discriminate|]).
  by apply orElse_default_nonempty.
Qed.

(** The parsers on an object row, in closed form. *)
Lemma parseWindowsLog_object props headers :
  parseWindowsLog (RowObject props) headers =
    Normal (mkLogEntry (valueOf1 props headers "Time")
                       (valueOf1 props headers "Component")
                       (valueOf1 props headers "Level")
                       (valueOf1 props headers "Content")
                       (Some "Windows") None None).
Proof. reflexivity. Qed.

Lemma parseLinuxSyslog_object props headers :
  parseLinuxSyslog (RowObject props) headers =
    Normal (mkLogEntry
              (trim (valueOf props headers "timestamp" "date" +:+ " "
                     +:+ valueOf props headers "time" ""))
              (orElse (orElse (valueOf props headers "program" "service")
                         (orElse (valueOf props headers "component" "daemon")
                                 (valueOf props headers "logger" "")))
                      "unknown")
              (normalizeLevel
                 (orElse (valueOf props headers "level" "priority")
                         (orElse (valueOf props headers "severity" "") "Info")))
              (orElse (valueOf props headers "message" "msg")
                      (valueOf props headers "content" ""))
              (Some "Linux")
              (Some (valueOf props headers "hostname" "host"))
              (Some (valueOf props headers "pid" "processid"))).
Proof.
  unfold parseLinuxSyslog. by rewrite !getValue_object, !orElseM_Normal.
Qed.

Lemma parseApacheLog_object props headers :
  exists l, l ∈ ["Error"; "Warning"; "Info"] /\
  parseApacheLog (RowObject props) headers =
    Normal (mkLogEntry
              (valueOf props headers "timestamp" "time") "apache" l
              (valueOf props headers "method" "" +:+ " "
               +:+ valueOf props headers "request" "uri" +:+ " - "
               +:+ valueOf props headers "status" "code" +:+ " - "
               +:+ valueOf props headers "referer" "")
              (Some "Apache") (Some (valueOf props headers "remotehost" "host")) None).
Proof.
  unfold parseApacheLog. rewrite !getValue_object. simpl.
  destruct (geNum _ 500); [|destruct (geNum _ 400)];
    eexists; (split; [|reflexivity]); in_list.
Qed.

Lemma parseHadoopLog_object props headers :
  parseHadoopLog (RowObject props) headers =
    Normal (mkLogEntry
              (valueOf props headers "logtime" "timestamp")
              (orElse (valueOf props headers "logger" "component") "hadoop")
              (normalizeLevel (valueOf props headers "level" "priority"))
              (orElse (valueOf props headers "message" "msg")
                      (valueOf props headers "content" ""))
              (Some "Hadoop") None None).
Proof.
  unfold parseHadoopLog. by rewrite !getValue_object, !orElseM_Normal.
Qed.

Lemma parseSparkLog_object props headers :
  parseSparkLog (RowObject props) headers =
    Normal (mkLogEntry
              (valueOf props headers "timestamp" "time")
              (orElse (valueOf props headers "logger" "component") "spark")
              (normalizeLevel (valueOf props headers "level" "priority"))
              (orElse (valueOf props headers "message" "msg")
                      (valueOf props headers "content" ""))
              (Some "Spark") None None).
Proof.
  unfold parseSparkLog. by rewrite !getValue_object, !orElseM_Normal.
Qed.

Lemma parseOpenSSHLog_object props headers :
  exists l, l ∈ ["Error"; "Warning"; "Info"] /\
  parseOpenSSHLog (RowObject props) headers =
    Normal (mkLogEntry
              (valueOf props headers "timestamp" "date") "sshd" l
              (orElse (valueOf props headers "message" "msg")
                      (valueOf props headers "content" ""))
              (Some "OpenSSH") (Some (valueOf props headers "hostname" "host")) None).
Proof.
  unfold parseOpenSSHLog. rewrite !getValue_object, !orElseM_Normal. simpl.
  destruct (_ || _); [|destruct (includes _ "warning")];
    eexists; (split; [|reflexivity]); in_list.
Qed.

(** On the row [null] every parser throws at its first
    property access. *)
Lemma rowParser_null format parse headers :
  rowParser format = Some parse -> exists e, parse RowNull headers = Throw e.
Proof.
  destruct format; intros [= <-]; eexists; reflexivity.
Qed.

(** On an object row every parser returns a record. *)
Lemma rowParser_total_on_objects format parse props headers :
  rowParser format = Some parse ->
  exists e, parse (RowObject props) headers = Normal e.
Proof.
  destruct format; intros [= <-].
  - rewrite parseWindowsLog_object. eauto.
  - rewrite parseLinuxSyslog_object. eauto.
  - destruct (parseApacheLog_object props headers) as (l & _ & ->). eauto.
  - rewrite parseHadoopLog_object. eauto.
  - rewrite parseSparkLog_object. eauto.
  - destruct (parseOpenSSHLog_object props headers) as (l & _ & ->). eauto.
Qed.

Lemma level_of_three (l : string) : l ∈ ["Error"; "Warning"; "Info"] -> l <> "".
Proof.
  intros H. repeat (apply elem_of_cons in H as [-> | H]; [discriminate|]).
  by apply elem_of_nil in H.
Qed.

(** C6 (as amended).  A record returned by the Linux syslog, Apache, Hadoop,
    Spark or OpenSSH row parser has a non-empty component and a non-empty
    level.  A parser that finds no value supplies a fallback: for the
    component the Linux syslog parser supplies unknown, the Hadoop parser
    hadoop and the Spark parser spark, and for the level each of the three
    supplies Info; the Apache and OpenSSH parsers set the component
    themselves (apache, sshd) and the level to Error, Warning or Info. *)
Theorem parsed_component_level_nonempty format parse row headers e :
  format <> windows ->
  rowParser format = Some parse ->
  parse row headers = Normal e ->
  component e <> "" /\ level e <> ""
  /\ exists props, row = RowObject props /\ SuppliesFallbacks format props headers e.
Proof.
  intros Hw Hp He. destruct row as [props|].
  2: { destruct (rowParser_null _ _ headers Hp) as [err Herr]. congruence. }
  destruct format; try done; injection Hp as <-.
  - rewrite parseLinuxSyslog_object in He. injection He as <-. simpl.
    split; [by apply orElse_default_nonempty|].
    split; [apply normalizeLevel_nonempty|].
    exists props. split; [done|]. split.
    + by intros (-> & -> & ->).
    + by intros (-> & ->).
  - destruct (parseApacheLog_object props headers) as (l & Hl & Heq).
    rewrite Heq in He. injection He as <-. simpl.
    split; [done|]. split; [by apply level_of_three|].
    exists props. by repeat split.
  - rewrite parseHadoopLog_object in He. injection He as <-. simpl.
    split; [by apply orElse_default_nonempty|].
    split; [apply normalizeLevel_nonempty|].
    exists props. split; [done|]. split; by intros ->.
  - rewrite parseSparkLog_object in He. injection He as <-. simpl.
    split; [by apply orElse_default_nonempty|].
    split; [apply normalizeLevel_nonempty|].
    exists props. split; [done|]. split; by intros ->.
  - destruct (parseOpenSSHLog_object props headers) as (l & Hl & Heq).
    rewrite Heq in He. injection He as <-. simpl.
    split; [done|]. split; [by apply level_of_three|].
    exists props. by repeat split.
Qed.

(** A syslog row without program, service or level column: the record gets
    the two fallbacks. *)
Lemma parsed_component_level_nonempty_witness :
  parseLinuxSyslog (RowObject [("timestamp", Str "Jun 14"); ("message", Str "started")])
                   ["timestamp"; "message"]
  = Normal (mkLogEntry "Jun 14" "unknown" "Info" "started"
                       (Some "Linux") (Some "") (Some ""))
  /\ component (mkLogEntry "Jun 14" "unknown" "Info" "started"
                           (Some "Linux") (Some "") (Some "")) <> ""
  /\ level (mkLogEntry "Jun 14" "unknown" "Info" "started"
                       (Some "Linux") (Some "") (Some "")) <> "".
Proof.
  split; [reflexivity|].
  destruct (parsed_component_level_nonempty
              linux_syslog parseLinuxSyslog
              (RowObject [("timestamp", Str "Jun 14"); ("message", Str "started")])
              ["timestamp"; "message"]
              (mkLogEntry "Jun 14" "unknown" "Info" "started"
                          (Some "Linux") (Some "") (Some "")))
    as (Hc & Hl & _);
    [discriminate | reflexivity | reflexivity | by split].
Defined.

(** C6 (as stated) fails twice.  The Windows parser has no fallback: a row
    of a Windows export whose Component and Level cells are empty is
    returned with an empty component and an empty level.  And the fallback
    component is not unknown for every parser: a Hadoop row and a Spark
    row without logger or component column are returned with the
    components hadoop and spark. *)
Lemma parsers_miss_the_stated_fallbacks :
  (detectLogFormat ["LineId"; "Time"; "Component"; "Level"; "Content"]
     [RowObject [("LineId", Str "1"); ("Time", Str "2016-09-28");
                 ("Component", Str ""); ("Level", Str ""); ("Content", Str "boom")]]
   = Normal windows
   /\ exists e,
        parseLogRow
          (RowObject [("LineId", Str "1"); ("Time", Str "2016-09-28");
                      ("Component", Str ""); ("Level", Str ""); ("Content", Str "boom")])
          ["LineId"; "Time"; "Component"; "Level"; "Content"] windows
        = Normal e
        /\ component e = "" /\ level e = "")
  /\ (exists e,
        parseLogRow (RowObject [("logtime", Str "10:01"); ("message", Str "block lost")])
                    ["logtime"; "message"] hadoop
        = Normal e
        /\ component e = "hadoop" /\ component e <> "unknown" /\ level e = "Info")
  /\ (exists e,
        parseLogRow (RowObject [("timestamp", Str "10:02"); ("message", Str "task lost")])
                    ["timestamp"; "message"] spark
        = Normal e
        /\ component e = "spark" /\ component e <> "unknown" /\ level e = "Info").
Proof.
  split; [|split].
  - split; [reflexivity|]. eexists. split; [reflexivity|]. by split.
  - eexists. split; [reflexivity|]. by repeat split.
  - eexists. split; [reflexivity|]. by repeat split.
Qed.

(** ** CSV ingestion *)

Lemma ownProperty_absent props k :
  (forall k' v, (k', v) ∈ props -> k' <> k) -> ownProperty props k = None.
Proof.
  induction props as [|[k' v] props IH]; intros H; simpl; [done|].
  destruct (strEq k' k) eqn:Heq.
  - apply strEq_true in Heq. exfalso. apply (H k' v); [apply list_elem_of_here | done].
  - apply IH. intros k'' v' Hin. apply (H k'' v'). by apply list_elem_of_further.
Qed.

(** A key that names no header and no property reads as the empty string. *)
Lemma valueOf_absent props headers key alt :
  (forall k v, (k, v) ∈ props -> k ∈ headers \/ k = "__parsed_extra") ->
  find (fun h => strEq (toLowerCase h) (toLowerCase key)
                 || strEq (toLowerCase h) (toLowerCase (orElse alt "")))
       headers = None ->
  key ∉ headers -> key <> "__parsed_extra" -> inherited key = false ->
  valueOf props headers key alt = "".
Proof.
  intros Hkeys Hfind Hkey Hextra Hinh. unfold valueOf. rewrite Hfind. cbn [headerOr].
  unfold fieldText. rewrite ownProperty_absent, Hinh; [done|].
  intros k' v Hin ->. by destruct (Hkeys _ v Hin).
Qed.

Lemma not_foo_bar (k : string) : k <> "foo" -> k <> "bar" -> k ∉ ["foo"; "bar"].
Proof.
  intros H1 H2. rewrite !not_elem_of_cons. repeat split; try done. apply not_elem_of_nil.
Qed.

Ltac no_such_column Hkeys :=
  rewrite !(valueOf_absent _ ["foo"; "bar"] _ _ Hkeys)
    by first [ reflexivity | by apply not_foo_bar | discriminate ].

(** Under the headers foo,bar both generic parsers find none of their
    columns. *)
Lemma foo_bar_openssh row :
  BuiltUnder ["foo"; "bar"] row ->
  parseOpenSSHLog row ["foo"; "bar"] = Normal genericSshRecord.
Proof.
  intros (props & -> & Hkeys). unfold parseOpenSSHLog.
  rewrite !getValue_object, !orElseM_Normal. no_such_column Hkeys. reflexivity.
Qed.

Lemma foo_bar_syslog row :
  BuiltUnder ["foo"; "bar"] row ->
  parseLinuxSyslog row ["foo"; "bar"] = Normal genericSyslogRecord.
Proof.
  intros (props & -> & Hkeys). rewrite parseLinuxSyslog_object.
  no_such_column Hkeys. reflexivity.
Qed.

(** An object row mentions one of the OpenSSH words in its first column,
    or it does not. *)
Lemma object_ssh_or_plain headers row :
  IsObject row -> SshRow headers row \/ PlainRow headers row.
Proof.
  intros [props ->].
  destruct (sshTest headers (RowObject props)) as [[|]|e] eqn:Htest.
  - left. by apply sshTest_true.
  - right. by apply sshTest_false.
  - discriminate.
Qed.

Lemma BuiltUnder_object names row : BuiltUnder names row -> IsObject row.
Proof. intros (props & -> & _). by exists props. Qed.

(** The OpenSSH rule on sampled object rows. *)
Lemma someM_sshTest headers rows :
  Forall IsObject rows ->
  (Exists (SshRow headers) rows -> someM (sshTest headers) rows = Normal true)
  /\ (Forall (PlainRow headers) rows -> someM (sshTest headers) rows = Normal false).
Proof.
  intros Hobj. split.
  - intros Hex. induction Hobj as [|row rows Hrow _ IH]; [by apply Exists_nil in Hex|].
    cbn [someM]. destruct (object_ssh_or_plain headers row Hrow) as [Hs | Hp].
    + apply sshTest_true in Hs. by rewrite Hs.
    + apply Exists_cons in Hex as [Hs | Hex].
      * apply sshTest_true in Hs. by rewrite Hs.
      * apply sshTest_false in Hp. rewrite Hp. by apply IH.
  - intros Hall. apply someM_false. eapply Forall_impl; [exact Hall|].
    intros row Hrow. by apply sshTest_false.
Qed.

(** Detection under the headers foo,bar is the OpenSSH rule alone. *)
Lemma detect_foo_bar rows :
  detectLogFormat ["foo"; "bar"] rows
  = (isSsh ← someM (sshTest ["foo"; "bar"]) rows;
     if (isSsh : bool) then Normal openssh else Normal auto).
Proof. rewrite detectLogFormat_eq. by vm_compute (hasHeaderb _ _). Qed.

(** A row under the headers foo,bar: which parser takes it, and the record
    it gives. *)
Lemma foo_bar_row row :
  BuiltUnder ["foo"; "bar"] row ->
  parseLogRow row ["foo"; "bar"] openssh = Normal genericSshRecord
  /\ (SshRow ["foo"; "bar"] row ->
      parseLogRow row ["foo"; "bar"] auto = Normal genericSshRecord)
  /\ (PlainRow ["foo"; "bar"] row ->
      parseLogRow row ["foo"; "bar"] auto = Normal genericSyslogRecord).
Proof.
  intros Hrow. split; [by apply foo_bar_openssh|].
  unfold parseLogRow. cbn [rowParser]. rewrite detect_foo_bar. cbn [someM]. split.
  - intros Hs. apply sshTest_true in Hs. rewrite Hs. cbn [mbind completion_bind].
    rewrite bool_decide_eq_true_2 by done. by apply foo_bar_openssh.
  - intros Hp. apply sshTest_false in Hp. rewrite Hp. cbn [mbind completion_bind].
    rewrite bool_decide_eq_false_2 by (intros ?; done). by apply foo_bar_syslog.
Qed.

Lemma hasContent_empty (e : LogEntry) : content e = "" -> hasContent e = false.
Proof. intros H. unfold hasContent. by rewrite H. Qed.

Lemma filter_imap_none {A B} (P : B -> Prop) `{forall x, Decision (P x)}
    (f : nat -> A -> B) (l : list A) :
  (forall i x, l !! i = Some x -> ~ P (f i x)) -> filter P (imap f l) = [].
Proof.
  revert f. induction l as [|x l IH]; intros f Hf; simpl; [done|].
  rewrite filter_cons_False by (by apply (Hf 0%nat)).
  apply IH. intros i y Hy. by apply (Hf (S i)).
Qed.

(** C7 (as amended).  For a CSV whose headers are foo,bar and whose body
    rows are non-empty, ingestion does not fail: it resolves.  No header
    rule applies, so the first column of the first five rows decides: when
    one of them mentions sshd, connection or authentication the format is
    OpenSSH and every row of the file goes to the OpenSSH parser;
    otherwise the format stays automatic and each row is dispatched on its
    own first column, to the OpenSSH parser when it mentions one of these
    words and to the Linux syslog parser when it does not.  The OpenSSH
    parser gives the component sshd, the Linux syslog parser the component
    unknown, both the level Info and, finding no message, msg or content
    column, an empty content; so no row is replaced by its serialisation,
    every record is filtered out, and the returned sequence is empty. *)
Theorem parseCSV_unknown_headers clock rows :
  rows <> [] ->
  Forall (BuiltUnder ["foo"; "bar"]) rows ->
  parseCSV clock (mkResults rows (Some ["foo"; "bar"])) auto = Resolved []
  /\ (Exists (SshRow ["foo"; "bar"]) (take 5 rows)
      \/ Forall (PlainRow ["foo"; "bar"]) (take 5 rows))
  /\ (Exists (SshRow ["foo"; "bar"]) (take 5 rows) ->
      detectLogFormat ["foo"; "bar"] (take 5 rows) = Normal openssh
      /\ Forall (fun row =>
                   parseLogRow row ["foo"; "bar"] openssh = Normal genericSshRecord)
                rows)
  /\ (Forall (PlainRow ["foo"; "bar"]) (take 5 rows) ->
      detectLogFormat ["foo"; "bar"] (take 5 rows) = Normal auto
      /\ Forall (fun row =>
                   (SshRow ["foo"; "bar"] row /\
                    parseLogRow row ["foo"; "bar"] auto = Normal genericSshRecord)
                   \/ (PlainRow ["foo"; "bar"] row /\
                       parseLogRow row ["foo"; "bar"] auto = Normal genericSyslogRecord))
                rows).
Proof.
  intros Hne Hrows.
  assert (Forall IsObject (take 5 rows)) as Hobj.
  { apply Forall_take. eapply Forall_impl; [exact Hrows|]. apply BuiltUnder_object. }
  destruct (someM_sshTest ["foo"; "bar"] _ Hobj) as [Hyes Hno].
  assert (Exists (SshRow ["foo"; "bar"]) (take 5 rows)
          \/ Forall (PlainRow ["foo"; "bar"]) (take 5 rows)) as Hcases.
  { clear Hyes Hno. induction Hobj as [|row sample Hrow _ IH]; [right; constructor|].
    destruct (object_ssh_or_plain ["foo"; "bar"] row Hrow) as [Hs | Hp].
    - left. by apply Exists_cons_hd.
    - destruct IH as [IH | IH]; [left; by apply Exists_cons_tl | right; by constructor]. }
  assert (Forall (fun row =>
                    parseLogRow row ["foo"; "bar"] openssh = Normal genericSshRecord)
                 rows) as Hssh.
  { eapply Forall_impl; [exact Hrows|]. intros row Hrow. by apply foo_bar_row. }
  assert (Forall (fun row =>
                    (SshRow ["foo"; "bar"] row /\
                     parseLogRow row ["foo"; "bar"] auto = Normal genericSshRecord)
                    \/ (PlainRow ["foo"; "bar"] row /\
                        parseLogRow row ["foo"; "bar"] auto = Normal genericSyslogRecord))
                 rows) as Hauto.
  { eapply Forall_impl; [exact Hrows|]. intros row Hrow.
    destruct (foo_bar_row row Hrow) as (_ & Hs & Hp).
    destruct (object_ssh_or_plain ["foo"; "bar"] row (BuiltUnder_object _ _ Hrow));
      [left | right]; auto. }
  split; [|split; [exact Hcases|split]].
  - unfold parseCSV. cbn [data fields default].
    destruct rows as [|row0 rows']; [done|].
    rewrite bool_decide_eq_true_2 by done. unfold id. rewrite detect_foo_bar.
    destruct Hcases as [Hex | Hall].
    + rewrite (Hyes Hex). cbn [mbind completion_bind]. f_equal.
      apply filter_imap_none. intros i row Hrow. unfold parseRowOrFallback.
      rewrite (Forall_lookup_1 _ _ _ _ Hssh Hrow). by rewrite hasContent_empty.
    + rewrite (Hno Hall). cbn [mbind completion_bind]. f_equal.
      apply filter_imap_none. intros i row Hrow. unfold parseRowOrFallback.
      destruct (Forall_lookup_1 _ _ _ _ Hauto Hrow) as [[_ ->] | [_ ->]];
        by rewrite hasContent_empty.
  - intros Hex. rewrite detect_foo_bar, (Hyes Hex). by split.
  - intros Hall. rewrite detect_foo_bar, (Hno Hall). by split.
Qed.

(** A file whose first row mentions sshd and whose second row, one field
    longer than the header line, does not: the promise resolves to the
    empty sequence. *)
Lemma parseCSV_unknown_headers_witness :
  parseCSV (fun _ => "2024-01-01T00:00:00.000Z")
           (mkResults [RowObject [("foo", Str "sshd restart")];
                       RowObject [("foo", Str "hello"); ("bar", Str "b");
                                  ("__parsed_extra", Arr ["c"])]]
                      (Some ["foo"; "bar"]))
           auto
  = Resolved [].
Proof.
  destruct (parseCSV_unknown_headers (fun _ => "2024-01-01T00:00:00.000Z")
              [RowObject [("foo", Str "sshd restart")];
               RowObject [("foo", Str "hello"); ("bar", Str "b");
                          ("__parsed_extra", Arr ["c"])]]) as [H _].
  - discriminate.
  - apply Forall_cons_2; [|apply Forall_cons_2; [|by apply Forall_nil_2]].
    + eexists. split; [reflexivity|]. intros k v Hin.
      repeat (apply elem_of_cons in Hin as [[= -> ->] | Hin]; [left; in_list|]).
      by apply elem_of_nil in Hin.
    + eexists. split; [reflexivity|]. intros k v Hin.
      apply elem_of_cons in Hin as [[= -> ->] | Hin]; [left; in_list|].
      apply elem_of_cons in Hin as [[= -> ->] | Hin]; [left; in_list|].
      apply elem_of_cons in Hin as [[= -> ->] | Hin]; [by right|].
      by apply elem_of_nil in Hin.
  - exact H.
Defined.

(** C7 (as stated) fails: for the headers foo,bar and the single row
    foo=a, bar=b the returned sequence is empty, so it holds no record for
    that row. *)
Lemma parseCSV_unknown_headers_yield_nothing :
  parseCSV (fun _ => "2024-01-01T00:00:00.000Z")
           (mkResults [RowObject [("foo", Str "a"); ("bar", Str "b")]] (Some ["foo"; "bar"]))
           auto
  = Resolved []
  /\ ~ YieldsSerializedRows (fun _ => "2024-01-01T00:00:00.000Z")
        (mkResults [RowObject [("foo", Str "a"); ("bar", Str "b")]] (Some ["foo"; "bar"])).
Proof.
  split; [reflexivity|].
  intros (logs & Hres & Hall). vm_compute in Hres. injection Hres as <-.
  simpl in Hall. by apply Forall2_nil_inv_r in Hall.
Qed.

(** C8.  When the parse result has no data row, whatever the header line
    and the requested format, ingestion rejects with the message that the
    CSV file is empty, and resolves to no record sequence; and that
    rejection is given for no other input. *)
Theorem parseCSV_empty_rejects :
  (forall clock fields format,
      parseCSV clock (mkResults [] fields) format
      = Rejected "CSV file is empty or has no valid data"
      /\ (forall logs, parseCSV clock (mkResults [] fields) format <> Resolved logs))
  /\ (forall clock results format,
        parseCSV clock results format
        = Rejected "CSV file is empty or has no valid data" ->
        data results = []).
Proof.
  split.
  - intros clock fields format. split; [reflexivity | discriminate].
  - intros clock [rows fields] format. unfold parseCSV. cbn [data CsvParser.fields].
    destruct rows as [|row rows]; [done|].
    destruct (if bool_decide (format = auto) then _ else _) as [detected|e];
      [discriminate|].
    simpl. intros [= H].
Qed.

(** ** The clustering *)

Lemma keyOf_has_dash (log : LogEntry) : includes (keyOf log) "-" = true.
Proof. apply includes_spec. by exists (component log), (level log). Qed.

(** No fingerprint is a property name inherited from [Object.prototype]:
    the [reduce] never takes the inherited arm of [step]. *)
Lemma keyOf_not_inherited (log : LogEntry) : inherited (keyOf log) = false.
Proof.
  destruct (inherited (keyOf log)) eqn:Hi; [|done].
  apply existsb_exists in Hi as [name [Hin Heq]]. apply strEq_true in Heq.
  pose proof (keyOf_has_dash log) as Hdash. rewrite Heq in Hdash.
  assert (forallb (fun n => negb (includes n "-")) objectPrototypeNames = true)
    as Hall by reflexivity.
  rewrite forallb_forall in Hall. specialize (Hall name Hin).
  by rewrite Hdash in Hall.
Qed.

Lemma ownCluster_Some acc k c : ownCluster acc k = Some c -> (k, c) ∈ acc.
Proof.
  induction acc as [|[k' c'] acc IH]; simpl; [done|].
  destruct (strEq k' k) eqn:Heq.
  - apply strEq_true in Heq as ->. intros [= ->]. apply list_elem_of_here.
  - intros H. apply list_elem_of_further. by apply IH.
Qed.

Lemma ownCluster_None acc k : ownCluster acc k = None <-> k ∉ map fst acc.
Proof.
  induction acc as [|[k' c'] acc IH]; simpl.
  - split; [intros _; apply not_elem_of_nil | done].
  - rewrite not_elem_of_cons. destruct (strEq k' k) eqn:Heq.
    + apply strEq_true in Heq as ->. split; [done | by intros [? _]].
    + apply strEq_false in Heq. rewrite IH. split; [by split | by intros [_ ?]].
Qed.

Lemma elem_of_keys (acc : Clusters) k c : (k, c) ∈ acc -> k ∈ map fst acc.
Proof. intros H. apply list_elem_of_fmap. by exists (k, c). Qed.

Lemma map_fst_bump acc k : map fst (bump acc k) = map fst acc.
Proof.
  induction acc as [|[k' c'] acc IH]; simpl; [done|].
  destruct (strEq k' k); simpl; [done | by rewrite IH].
Qed.

Lemma elem_of_bump acc k k' c' :
  NoDup (map fst acc) -> (k', c') ∈ bump acc k ->
  (k' <> k /\ (k', c') ∈ acc)
  \/ (k' = k /\ exists c, (k, c) ∈ acc /\ c' = increment c).
Proof.
  induction acc as [|[k0 c0] acc IH]; simpl; intros Hnd Hin.
  - by apply elem_of_nil in Hin.
  - apply NoDup_cons in Hnd as [Hk0 Hnd].
    destruct (strEq k0 k) eqn:Heq.
    + apply strEq_true in Heq as ->.
      apply elem_of_cons in Hin as [[= -> ->] | Hin].
      * right. split; [done|]. exists c0. split; [apply list_elem_of_here | done].
      * left. split; [|by apply list_elem_of_further].
        intros ->. by apply Hk0, (elem_of_keys _ _ c').
    + apply strEq_false in Heq.
      apply elem_of_cons in Hin as [[= -> ->] | Hin].
      * left. split; [done | apply list_elem_of_here].
      * destruct (IH Hnd Hin) as [[Hne Hin'] | [-> (c & Hin' & ->)]].
        -- left. split; [done | by apply list_elem_of_further].
        -- right. split; [done|]. exists c. split; [by apply list_elem_of_further | done].
Qed.

Lemma bump_fresh acc k c :
  ownCluster acc k = None -> bump (acc ++ [(k, c)]) k = acc ++ [(k, increment c)].
Proof.
  induction acc as [|[k' c'] acc IH]; simpl.
  - intros _. by rewrite strEq_refl.
  - destruct (strEq k' k); [done|]. intros H. by rewrite IH.
Qed.

Lemma occurrences_snoc k seen log :
  occurrences k (seen ++ [log]) =
    occurrences k seen + (if decide (keyOf log = k) then 1 else 0).
Proof.
  unfold occurrences. rewrite filter_app, length_app, Nat2Z.inj_add. f_equal.
  rewrite filter_cons, filter_nil. by destruct (decide (keyOf log = k)).
Qed.

Lemma firstWith_snoc k seen log :
  firstWith k (seen ++ [log]) =
    match firstWith k seen with
    | Some first => Some first
    | None => if strEq (keyOf log) k then Some log else None
    end.
Proof.
  unfold firstWith. induction seen as [|x seen IH]; simpl; [done|].
  by destruct (strEq (keyOf x) k).
Qed.

Lemma firstWith_None k seen : k ∉ map keyOf seen -> firstWith k seen = None.
Proof.
  unfold firstWith. induction seen as [|x seen IH]; simpl; [done|].
  rewrite not_elem_of_cons. intros [Hne Hnot].
  rewrite (proj2 (strEq_false (keyOf x) k)) by done. by apply IH.
Qed.

Lemma occurrences_absent k seen : k ∉ map keyOf seen -> occurrences k seen = 0.
Proof.
  unfold occurrences. induction seen as [|x seen IH]; simpl; [done|].
  rewrite not_elem_of_cons. intros [Hne Hnot].
  rewrite filter_cons_False by done. by apply IH.
Qed.

Lemma Summarises_other seen k c log :
  Summarises seen k c -> keyOf log <> k -> Summarises (seen ++ [log]) k c.
Proof.
  intros (Hf & Hc & first & Hfirst & Hrest) Hne. split; [done|]. split.
  - rewrite occurrences_snoc, decide_False by done. lia.
  - exists first. by rewrite firstWith_snoc, Hfirst.
Qed.

Lemma Summarises_same seen c log :
  Summarises seen (keyOf log) c -> Summarises (seen ++ [log]) (keyOf log) (increment c).
Proof.
  intros (Hf & Hc & first & Hfirst & Hrest). split; [done|]. split.
  - rewrite occurrences_snoc, decide_True by done. simpl. lia.
  - exists first. by rewrite firstWith_snoc, Hfirst.
Qed.

Lemma Summarises_fresh seen log :
  keyOf log ∉ map keyOf seen ->
  Summarises (seen ++ [log]) (keyOf log)
    (increment (mkCluster (component log) (level log) 0 (content log) (keyOf log))).
Proof.
  intros Hnew. split; [done|]. split.
  - rewrite occurrences_snoc, decide_True, occurrences_absent by done. done.
  - exists log. by rewrite firstWith_snoc, firstWith_None, strEq_refl.
Qed.

(** One step of the [reduce] keeps the accumulator the clustering of the
    records seen so far. *)
Lemma step_ClustersFor seen acc log :
  ClustersFor seen acc -> ClustersFor (seen ++ [log]) (step acc log).
Proof.
  intros (Hnd & Hkeys & Hsum). unfold step.
  destruct (ownCluster acc (keyOf log)) as [c0|] eqn:Hown.
  - apply ownCluster_Some in Hown.
    assert (keyOf log ∈ map keyOf seen) as Hseen
      by (by apply Hkeys, (elem_of_keys _ _ c0)).
    split; [by rewrite map_fst_bump|]. split.
    + intros k. rewrite map_fst_bump, Hkeys, map_app, elem_of_app. simpl.
      rewrite list_elem_of_singleton. split; [by left | by intros [? | ->]].
    + intros k c Hin.
      destruct (elem_of_bump _ _ _ _ Hnd Hin) as [[Hne Hin'] | [-> (c1 & Hin' & ->)]].
      * apply Summarises_other; [by apply Hsum | done].
      * by apply Summarises_same, Hsum.
  - rewrite keyOf_not_inherited, bump_fresh by done.
    pose proof (proj1 (ownCluster_None _ _) Hown) as Hnew.
    assert (keyOf log ∉ map keyOf seen) as Hunseen by (by rewrite <- Hkeys).
    split; [|split].
    + rewrite map_app. simpl. apply NoDup_app. split; [done|]. split.
      * intros k Hk Hk'. apply list_elem_of_singleton in Hk' as ->. done.
      * apply NoDup_singleton.
    + intros k. rewrite !map_app, !elem_of_app, Hkeys. simpl.
      by rewrite !list_elem_of_singleton.
    + intros k c Hin. apply elem_of_app in Hin as [Hin | Hin].
      * apply Summarises_other; [by apply Hsum|].
        intros <-. by apply Hnew, (elem_of_keys _ _ c).
      * apply list_elem_of_singleton in Hin as [= -> ->]. by apply Summarises_fresh.
Qed.

Lemma fold_step_ClustersFor logs seen acc :
  ClustersFor seen acc -> ClustersFor (seen ++ logs) (fold_left step logs acc).
Proof.
  revert seen acc. induction logs as [|log logs IH]; intros seen acc H; simpl.
  - by rewrite app_nil_r.
  - replace (seen ++ log :: logs) with ((seen ++ [log]) ++ logs)
      by (by rewrite <- app_assoc).
    by apply IH, step_ClustersFor.
Qed.

(** The clusters built from a record list are its clustering. *)
Lemma clustersOf_ClustersFor logs : ClustersFor logs (clustersOf logs).
Proof.
  apply (fold_step_ClustersFor logs [] []).
  split; [apply NoDup_nil_2|]. split; [done|].
  intros k c Hin. by apply elem_of_nil in Hin.
Qed.

(** ** Sorting and truncation *)

Section Sort.
Context {A : Type} (cmp : A -> A -> JsNumber).

Lemma insertSorted_perm (x : A) (l : list A) : insertSorted cmp x l ≡ₚ x :: l.
Proof.
  induction l as [|y l IH]; simpl; [done|].
  destruct (sortCompare cmp x y <? 0); [done|].
  rewrite IH. apply Permutation_swap.
Qed.

Lemma fold_insertSorted_perm (l acc : list A) :
  fold_left (fun sorted pivot => insertSorted cmp pivot sorted) l acc ≡ₚ l ++ acc.
Proof.
  revert acc. induction l as [|x l IH]; intros acc; simpl; [done|].
  rewrite IH, insertSorted_perm. by rewrite Permutation_middle.
Qed.

(** [sort] rearranges: nothing is lost, nothing is added. *)
Lemma sortWith_perm (l : list A) : sortWith cmp l ≡ₚ l.
Proof. unfold sortWith. by rewrite fold_insertSorted_perm, app_nil_r. Qed.
End Sort.

Lemma fingerprints_are_keys seen (acc : Clusters) :
  ClustersFor seen acc -> map c_fingerprint (map snd acc) = map fst acc.
Proof.
  intros (_ & _ & Hsum). induction acc as [|[k c] acc IH]; simpl; [done|].
  f_equal.
  - by apply (Hsum k c), list_elem_of_here.
  - apply IH. intros k' c' Hin. by apply Hsum, list_elem_of_further.
Qed.

Lemma digest_fingerprints (l : list Cluster) :
  map fingerprint (map toDigest l) = map c_fingerprint l.
Proof. by rewrite map_map. Qed.

Lemma clusters_count_distinct logs :
  length (clustersOf logs) = size (distinctKeys logs).
Proof.
  destruct (clustersOf_ClustersFor logs) as (Hnd & Hkeys & _).
  unfold distinctKeys.
  replace (list_to_set (map keyOf logs) : gset string)
    with (list_to_set (map fst (clustersOf logs)) : gset string).
  - rewrite size_list_to_set by done. by rewrite length_map.
  - apply set_eq. intros k. by rewrite !elem_of_list_to_set.
Qed.

Lemma processLogs_length (input : LogInput) :
  length (processLogs input) = (100 `min` size (distinctKeys (unify input)))%nat.
Proof.
  unfold processLogs.
  rewrite length_map, length_take, (Permutation_length (sortWith_perm _ _)), length_map.
  by rewrite clusters_count_distinct.
Qed.

Lemma digest_of_unify (input : LogInput) :
  NoDup (map fingerprint (processLogs input))
  /\ (forall k, k ∈ map fingerprint (processLogs input) -> k ∈ distinctKeys (unify input)).
Proof.
  pose proof (clustersOf_ClustersFor (unify input)) as Hfor.
  pose proof Hfor as (Hnd & Hkeys & _).
  assert (map fingerprint (processLogs input)
          `sublist_of` map c_fingerprint (sortWith compareClusters
                                            (map snd (clustersOf (unify input))))) as Hsub.
  { unfold processLogs. rewrite digest_fingerprints, <- firstn_map. apply sublist_take. }
  assert (map c_fingerprint (sortWith compareClusters (map snd (clustersOf (unify input))))
          ≡ₚ map fst (clustersOf (unify input))) as Hperm.
  { rewrite <- (fingerprints_are_keys _ _ Hfor).
    apply Permutation_map, sortWith_perm. }
  split.
  - eapply sublist_NoDup; [|exact Hsub]. by rewrite Hperm.
  - intros k Hk. unfold distinctKeys. apply elem_of_list_to_set, Hkeys.
    rewrite <- Hperm. eapply elem_of_sublist; [exact Hk | exact Hsub].
Qed.

(** The input as [unify] hands it on has the records and the fingerprints
    of the argument. *)
Lemma unify_recordCount (input : LogInput) : length (unify input) = recordCount input.
Proof. destruct input as [logs|[|w ws]]; simpl; [done..|]. by rewrite length_map. Qed.

Lemma unify_fingerprints (input : LogInput) :
  distinctKeys (unify input) = fingerprintsOf input.
Proof.
  destruct input as [logs|[|w ws]]; [done..|].
  unfold distinctKeys, fingerprintsOf, unify. by rewrite map_map.
Qed.

(** C1.  For every list of unified records the digest holds at most one
    entry per fingerprint, each of its fingerprints is the component and
    the level of some record of the list joined by a hyphen, and its length
    is the smaller of 100 and the number of distinct such fingerprints in
    the list; so it never exceeds 100. *)
Theorem processLogs_bounded_digest (logs : list LogEntry) :
  NoDup (map fingerprint (processLogs (Unified logs)))
  /\ (forall k, k ∈ map fingerprint (processLogs (Unified logs)) ->
                exists log, log ∈ logs /\ k = component log +:+ "-" +:+ level log)
  /\ length (processLogs (Unified logs))
     = (100 `min` size (fingerprintsIn logs))%nat
  /\ (length (processLogs (Unified logs)) <= 100)%nat.
Proof.
  destruct (digest_of_unify (Unified logs)) as [Hnd Hin].
  pose proof (processLogs_length (Unified logs)) as Hlen.
  rewrite unify_fingerprints in Hlen. cbn [fingerprintsOf] in Hlen.
  split; [exact Hnd|]. split; [|split; [exact Hlen | lia]].
  intros k Hk. apply Hin in Hk. rewrite unify_fingerprints in Hk.
  apply elem_of_list_to_set, list_elem_of_fmap in Hk as (log & -> & Hlog).
  by exists log.
Qed.

(** ** Cluster contents *)




Lemma digest_entry_cluster input e :
  e ∈ processLogs input ->
  exists c, e = toDigest c /\ (c_fingerprint c, c) ∈ clustersOf (unify input)
            /\ Summarises (unify input) (c_fingerprint c) c.
Proof.
  unfold processLogs. intros He.
  apply list_elem_of_fmap in He as (c & -> & Hc).
  apply elem_of_take in Hc as (i & Hc & _). apply list_elem_of_lookup_2 in Hc.
  rewrite sortWith_perm in Hc. apply list_elem_of_fmap in Hc as ([k c'] & -> & Hin).
  destruct (clustersOf_ClustersFor (unify input)) as (_ & _ & Hsum).
  pose proof (Hsum _ _ Hin) as Hs. destruct Hs as (Hf & Hrest). simpl.
  exists c'. rewrite Hf. split; [done|]. split; [done|]. by apply Hsum.
Qed.


(** ** The statistics *)

Lemma newSet_spec (l : list string) :
  NoDup (newSet l) /\ (forall x, x ∈ newSet l <-> x ∈ l).
Proof.
  unfold newSet.
  assert (forall s seen,
             NoDup s -> (forall x, x ∈ s <-> x ∈ seen) ->
             NoDup (fold_left (fun s x => if existsb (strEq x) s then s else s ++ [x]) l s)
             /\ (forall x, x ∈ fold_left (fun s x => if existsb (strEq x) s then s else s ++ [x]) l s
                           <-> x ∈ seen ++ l)) as Hgen.
  { induction l as [|y l IH]; intros s seen Hnd Hs; simpl.
    - rewrite app_nil_r. by split.
    - replace (seen ++ y :: l) with ((seen ++ [y]) ++ l) by (by rewrite <- app_assoc).
      destruct (existsb (strEq y) s) eqn:Hy.
      + apply IH; [done|]. intros x. rewrite elem_of_app, list_elem_of_singleton, <- Hs.
        split; [by left | intros [? | ->]; [done|]].
        apply existsb_exists in Hy as (z & Hz & Heq). apply strEq_true in Heq as ->.
        by apply list_elem_of_In.
      + apply IH.
        * apply NoDup_app. split; [done|]. split; [|apply NoDup_singleton].
          intros x Hx Hx'. apply list_elem_of_singleton in Hx' as ->.
          assert (existsb (strEq y) s = true) as Hy'; [|congruence].
          apply existsb_exists. exists y. split; [by apply list_elem_of_In | apply strEq_refl].
        * intros x. by rewrite !elem_of_app, Hs. }
  destruct (Hgen [] []) as [H1 H2]; [apply NoDup_nil_2 | done |]. by split.
Qed.

(** The size of the [Set] of fingerprints is the number of distinct
    fingerprints. *)
Lemma newSet_size (logs : list LogEntry) :
  length (newSet (map keyOf logs)) = size (distinctKeys logs).
Proof.
  destruct (newSet_spec (map keyOf logs)) as [Hnd Hin]. unfold distinctKeys.
  rewrite <- (size_list_to_set (C := gset string) _ Hnd). f_equal.
  apply set_eq. intros k. by rewrite !elem_of_list_to_set.
Qed.

Lemma count_ignoring_case (word : string) (logs : list LogEntry) :
  toLowerCase word = word ->
  length (filter (fun log => strEq (toLowerCase (level log)) word = true) logs)
  = length (filter (fun log => SameIgnoringCase (level log) word) logs).
Proof.
  intros Hword. f_equal. apply list_filter_iff. intros log.
  unfold SameIgnoringCase. by rewrite strEq_true, Hword.
Qed.

(** C5.  For every list of records the statistics are read off the list:
    the total is its length; the number of unique patterns is the number
    of distinct fingerprints (component, hyphen, level) in it, not capped,
    so it equals the digest length when there are at most 100 of them and
    is at least (in fact more than) the digest length otherwise; the error
    and warning counts are the numbers of records of the list whose level
    equals error, respectively warning, up to case. *)
Theorem calculateStats_counts (logs : list LogEntry) :
  totalLogs (calculateStats (Unified logs)) = length logs
  /\ uniquePatterns (calculateStats (Unified logs)) = size (fingerprintsIn logs)
  /\ ((100 < size (fingerprintsIn logs))%nat ->
      (length (processLogs (Unified logs))
       <= uniquePatterns (calculateStats (Unified logs)))%nat
      /\ (length (processLogs (Unified logs))
          < uniquePatterns (calculateStats (Unified logs)))%nat)
  /\ ((size (fingerprintsIn logs) <= 100)%nat ->
      uniquePatterns (calculateStats (Unified logs))
      = length (processLogs (Unified logs)))
  /\ errorCount (calculateStats (Unified logs))
     = length (filter (fun log => SameIgnoringCase (level log) "error") logs)
  /\ warningCount (calculateStats (Unified logs))
     = length (filter (fun log => SameIgnoringCase (level log) "warning") logs).
Proof.
  assert (uniquePatterns (calculateStats (Unified logs)) = size (fingerprintsIn logs))
    as Hu.
  { unfold calculateStats. cbn [uniquePatterns unify]. apply newSet_size. }
  pose proof (processLogs_length (Unified logs)) as Hlen.
  rewrite unify_fingerprints in Hlen. cbn [fingerprintsOf] in Hlen.
  split; [reflexivity|]. split; [exact Hu|].
  rewrite Hu, Hlen.
  split; [lia|]. split; [lia|].
  split; unfold calculateStats; simpl; by apply count_ignoring_case.
Qed.

(** A list of records, unified or legacy, is given as it is. *)
Lemma unify_unified (logs : list LogEntry) : unify (Unified logs) = logs.
Proof. reflexivity. Qed.

Lemma unify_legacy (logs : list WindowsLog) :
  unify (Legacy logs) = map convertWindowsLog logs.
Proof. by destruct logs. Qed.

(** ** The fingerprint is not injective *)

(** C10.  Two records can differ in component and in level and still have
    the same fingerprint; and whenever two records have the same
    fingerprint, the digest of the two is a single entry that has the
    component, level and content of the first and the frequency 2, and the
    statistics count one unique pattern. *)
Theorem fingerprint_collision_merges :
  (exists r1 r2, component r1 <> component r2 /\ level r1 <> level r2
                 /\ keyOf r1 = keyOf r2)
  /\ (forall r1 r2, keyOf r1 = keyOf r2 ->
        processLogs (Unified [r1; r2])
        = [mkLogDigest (component r1) (level r1) 2 (content r1) (keyOf r1)]
        /\ uniquePatterns (calculateStats (Unified [r1; r2])) = 1%nat).
Proof.
  split.
  - exists (mkLogEntry "" "a-b" "c" "first" None None None),
           (mkLogEntry "" "a" "b-c" "second" None None None).
    by repeat split.
  - intros r1 r2 Hkey. split.
    + unfold processLogs, clustersOf. cbn [unify fold_left].
      unfold step at 2. cbn [ownCluster]. rewrite keyOf_not_inherited.
      cbn [app bump]. rewrite strEq_refl.
      unfold step. cbn [ownCluster bump]. rewrite <- Hkey, strEq_refl.
      reflexivity.
    + unfold calculateStats, newSet. cbn [uniquePatterns unify map fold_left existsb app].
      rewrite <- Hkey, strEq_refl. reflexivity.
Qed.

(** The records a-b/c and a/b-c: one digest entry, one unique pattern. *)
Lemma fingerprint_collision_merges_witness :
  processLogs (Unified [mkLogEntry "" "a-b" "c" "first" None None None;
                        mkLogEntry "" "a" "b-c" "second" None None None])
  = [mkLogDigest "a-b" "c" 2 "first" "a-b-c"]
  /\ uniquePatterns
       (calculateStats (Unified [mkLogEntry "" "a-b" "c" "first" None None None;
                                 mkLogEntry "" "a" "b-c" "second" None None None]))
     = 1%nat.
Proof.
  apply (proj2 fingerprint_collision_merges
           (mkLogEntry "" "a-b" "c" "first" None None None)
           (mkLogEntry "" "a" "b-c" "second" None None None)).
  reflexivity.
Defined.

(** ** The ranking *)

Lemma priorityOr0_rank (l : string) :
  inherited l = false -> priorityOr0 l = Some (levelRank l).
Proof.
  intros H. unfold priorityOr0, levelPriority, levelRank.
  repeat (match goal with |- context [strEq l ?w] => destruct (strEq l w) end;
          [done|]).
  by rewrite H.
Qed.

(** On plain levels the comparator is the difference of the frequencies
    or, for equal frequencies, of the priorities. *)
Lemma sortCompare_plain (x y : Cluster) :
  PlainLevel x -> PlainLevel y ->
  sortCompare compareClusters x y =
    if bool_decide (count y <> count x) then count y - count x
    else levelRank (c_level y) - levelRank (c_level x).
Proof.
  unfold PlainLevel, sortCompare, compareClusters. intros Hx Hy.
  destruct (bool_decide (count y <> count x)); [done|].
  by rewrite !priorityOr0_rank.
Qed.

Lemma sortCompare_neg (x y : Cluster) :
  PlainLevel x -> PlainLevel y ->
  (sortCompare compareClusters x y <? 0) = true -> Precedes x y.
Proof.
  intros Hx Hy. rewrite sortCompare_plain by done. unfold Precedes.
  case_bool_decide; rewrite Z.ltb_lt; lia.
Qed.

Lemma sortCompare_nonneg (x y : Cluster) :
  PlainLevel x -> PlainLevel y ->
  (sortCompare compareClusters x y <? 0) = false -> Precedes y x.
Proof.
  intros Hx Hy. rewrite sortCompare_plain by done. unfold Precedes.
  case_bool_decide; rewrite Z.ltb_ge; lia.
Qed.

Lemma Precedes_trans (a b c : Cluster) : Precedes a b -> Precedes b c -> Precedes a c.
Proof. unfold Precedes. lia. Qed.

Lemma insertSorted_sorted (x : Cluster) (l : list Cluster) :
  PlainLevel x -> Forall PlainLevel l -> StronglySorted Precedes l ->
  StronglySorted Precedes (insertSorted compareClusters x l).
Proof.
  intros Hx. induction l as [|y l IH]; intros Hl Hs; simpl.
  - by repeat constructor.
  - apply Forall_cons in Hl as [Hy Hl]. apply StronglySorted_inv in Hs as [Hs Hyl].
    destruct (sortCompare compareClusters x y <? 0) eqn:Hcmp.
    + apply sortCompare_neg in Hcmp; [|done..].
      constructor; [by constructor|]. constructor; [done|].
      eapply Forall_impl; [exact Hyl|]. intros z Hz. by eapply Precedes_trans.
    + apply sortCompare_nonneg in Hcmp; [|done..].
      constructor; [by apply IH|].
      rewrite insertSorted_perm. by constructor.
Qed.

Lemma insertSorted_plain (x : Cluster) (l : list Cluster) :
  PlainLevel x -> Forall PlainLevel l ->
  Forall PlainLevel (insertSorted compareClusters x l).
Proof. intros Hx Hl. rewrite insertSorted_perm. by constructor. Qed.

(** On plain levels [sort] with the comparator of the source does sort. *)
Lemma sortWith_sorted (l : list Cluster) :
  Forall PlainLevel l -> StronglySorted Precedes (sortWith compareClusters l).
Proof.
  unfold sortWith.
  assert (forall acc, Forall PlainLevel acc -> StronglySorted Precedes acc ->
                      Forall PlainLevel l ->
                      StronglySorted Precedes
                        (fold_left (fun sorted pivot =>
                                      insertSorted compareClusters pivot sorted) l acc))
    as Hgen.
  { induction l as [|x l IH]; intros acc Hacc Hs Hl; simpl; [done|].
    apply Forall_cons in Hl as [Hx Hl].
    apply IH; [by apply insertSorted_plain | by apply insertSorted_sorted | done]. }
  intros Hl. apply Hgen; [done | constructor | done].
Qed.

Lemma StronglySorted_adjacent {A} (R : A -> A -> Prop) (l : list A) i a b :
  StronglySorted R l -> l !! i = Some a -> l !! S i = Some b -> R a b.
Proof.
  intros Hs. revert i. induction Hs as [|x l Hs IH Hall]; intros i Ha Hb; [done|].
  destruct i as [|i]; simpl in *.
  - injection Ha as ->. rewrite Forall_forall in Hall. apply Hall.
    by apply (list_elem_of_lookup_2 _ 0%nat).
  - by apply (IH i).
Qed.

Lemma firstWith_Some k logs first :
  firstWith k logs = Some first -> first ∈ logs /\ keyOf first = k.
Proof.
  unfold firstWith. intros H. apply find_some in H as [Hin Heq].
  split; [by apply list_elem_of_In | by apply strEq_true].
Qed.

Lemma clusters_plain (logs : list LogEntry) :
  (forall log, log ∈ logs -> inherited (level log) = false) ->
  Forall PlainLevel (map snd (clustersOf logs)).
Proof.
  intros Hlogs. apply Forall_forall. intros c Hc.
  apply list_elem_of_fmap in Hc as ([k c'] & -> & Hin).
  destruct (clustersOf_ClustersFor logs) as (_ & _ & Hsum).
  destruct (Hsum _ _ Hin) as (_ & _ & first & Hfirst & _ & Hlevel & _).
  apply firstWith_Some in Hfirst as [Hfirst _].
  unfold PlainLevel. simpl. rewrite Hlevel. by apply Hlogs.
Qed.

(** When no record's level is a property name inherited from
    [Object.prototype], neighbours of the digest are ranked as the
    specification asks: by frequency, then by level priority. *)
Lemma processLogs_ranked_on_plain_levels (input : LogInput) :
  (forall log, log ∈ unify input -> inherited (level log) = false) ->
  AdjacentRanked (processLogs input).
Proof.
  intros Hlogs i a b Ha Hb. unfold processLogs in Ha, Hb.
  rewrite list_lookup_fmap in Ha, Hb.
  destruct (take 100 _ !! i) as [ca|] eqn:Hca; [|done].
  destruct (take 100 _ !! S i) as [cb|] eqn:Hcb; [|done].
  injection Ha as <-. injection Hb as <-.
  apply lookup_take_Some in Hca as [Hca _]. apply lookup_take_Some in Hcb as [Hcb _].
  pose proof (StronglySorted_adjacent _ _ _ _ _
                (sortWith_sorted _ (clusters_plain _ Hlogs)) Hca Hcb) as H.
  exact H.
Qed.

(** C2 at the failing input.  A Windows export with two rows, the first of
    level constructor, the second of level Error, is ingested into two
    records, each the only one of its fingerprint.  The comparator
    evaluates to NaN on the two clusters, the sort leaves them in insertion
    order, and the digest lists the constructor entry (priority 0 in the
    specification's table) before the Error entry (priority 3) although
    their frequencies are equal. *)
Theorem processLogs_inherited_level_unranked :
  parseCSV (fun _ => "")
    (mkResults
       [RowObject [("LineId", Str "1"); ("Time", Str "t1"); ("Component", Str "a");
                   ("Level", Str "constructor"); ("Content", Str "x")];
        RowObject [("LineId", Str "2"); ("Time", Str "t2"); ("Component", Str "b");
                   ("Level", Str "Error"); ("Content", Str "y")]]
       (Some ["LineId"; "Time"; "Component"; "Level"; "Content"]))
    auto
  = Resolved [mkLogEntry "t1" "a" "constructor" "x" (Some "Windows") None None;
              mkLogEntry "t2" "b" "Error" "y" (Some "Windows") None None]
  /\ compareClusters (mkCluster "b" "Error" 1 "y" "b-Error")
                     (mkCluster "a" "constructor" 1 "x" "a-constructor") = NaN
  /\ processLogs
       (Unified [mkLogEntry "t1" "a" "constructor" "x" (Some "Windows") None None;
                 mkLogEntry "t2" "b" "Error" "y" (Some "Windows") None None])
     = [mkLogDigest "a" "constructor" 1 "x" "a-constructor";
        mkLogDigest "b" "Error" 1 "y" "b-Error"]
  /\ ~ AdjacentRanked
        (processLogs
           (Unified [mkLogEntry "t1" "a" "constructor" "x" (Some "Windows") None None;
                     mkLogEntry "t2" "b" "Error" "y" (Some "Windows") None None])).
Proof.
  split; [reflexivity|]. split; [reflexivity|]. split; [reflexivity|].
  intros H.
  specialize (H 0%nat (mkLogDigest "a" "constructor" 1 "x" "a-constructor")
                (mkLogDigest "b" "Error" 1 "y" "b-Error") eq_refl eq_refl).
  unfold RankedBefore in H. vm_compute in H. destruct H as [H | [_ H]]; [done|].
  by apply H.
Qed.

(** ** Side conditions of the embedding *)

(** The detector answers with a format that has a parser of its own, or
    with automatic: the inner call of [parseLogRow] never detects again. *)
Lemma detect_has_parser headers rows f :
  detectLogFormat headers rows = Normal f -> f = auto \/ is_Some (rowParser f).
Proof.
  intros H. apply detectLogFormat_sound in H. destruct H; simpl; eauto.
Qed.

Lemma allDigits_no_dash (s : string) : allDigits s = true -> includes s "-" = false.
Proof.
  induction s as [|c s IH]; simpl; [done|].
  rewrite !andb_true_iff. intros [[H1 H2] H3]. rewrite IH, orb_false_r, andb_true_r by done.
  apply bool_decide_eq_false. intros <-. vm_compute in H1. done.
Qed.

(** No fingerprint is an array index: the clusters are enumerated in
    insertion order. *)
Lemma keyOf_not_array_index (log : LogEntry) : allDigits (keyOf log) = false.
Proof.
  destruct (allDigits (keyOf log)) eqn:H; [|done].
  apply allDigits_no_dash in H. by rewrite keyOf_has_dash in H.
Qed.

(** ** A run of the whole pipeline *)

(** The Windows scenario of the specification: two DnsApi errors and one
    DnsApi information row are ingested as Windows rows and digested into
    the error cluster, of frequency 2, ahead of the information cluster. *)
Example windows_scenario :
  let headers := ["LineId"; "Time"; "Component"; "Level"; "Content"] in
  let row id lvl msg :=
    RowObject [("LineId", Str id); ("Time", Str "2016-09-28 04:30:30");
               ("Component", Str "DnsApi"); ("Level", Str lvl); ("Content", Str msg)] in
  exists logs,
    parseCSV (fun _ => "") (mkResults [row "1" "Error" "lookup failed";
                                        row "2" "Info" "cache flushed";
                                        row "3" "Error" "lookup timed out"]
                                       (Some headers)) auto
    = Resolved logs
    /\ processLogs (Unified logs)
       = [mkLogDigest "DnsApi" "Error" 2 "lookup failed" "DnsApi-Error";
          mkLogDigest "DnsApi" "Info" 1 "cache flushed" "DnsApi-Info"]
    /\ calculateStats (Unified logs) = mkStats 3 2 2 0.
Proof. eexists. split; [reflexivity|]. split; reflexivity. Qed.

(** * Further properties *)

(** ** White space and the content filter *)








(** ** Object rows, the row null, and formats without a parser *)

Lemma detect_objects headers rows :
  Forall IsObject rows -> exists f, detectLogFormat headers rows = Normal f.
Proof.
  intros Hrows. rewrite detectLogFormat_eq.
  repeat (match goal with |- context [if ?b then Normal _ else _] =>
                            destruct b; [eauto|] end).
  assert (exists b, someM (sshTest headers) rows = Normal b) as [b ->].
  { induction Hrows as [|row rows [props ->] _ [b IH]]; simpl; [by exists false|].
    unfold sshTest at 1. cbn [readField mbind completion_bind].
    destruct (includes _ "sshd" || _ || _); [by exists true | by exists b]. }
  simpl. destruct b; eauto.
Qed.

Lemma parseLogRow_known format parse row headers :
  rowParser format = Some parse -> parseLogRow row headers format = parse row headers.
Proof. intros H. unfold parseLogRow. by rewrite H. Qed.

(** Under a format without a parser of its own the row is parsed as under
    automatic detection. *)
Lemma parseLogRow_unknown format row headers :
  rowParser format = None ->
  parseLogRow row headers format = parseLogRow row headers auto.
Proof. intros H. unfold parseLogRow. by rewrite H. Qed.

(** X2.  Under every format, also the ones without a parser of their own,
    an object row is parsed into a record: the re-dispatch on the detected
    format ends after one step and no parser throws on an object. *)
Theorem parseLogRow_total_on_objects props headers format :
  exists e, parseLogRow (RowObject props) headers format = Normal e.
Proof.
  destruct (rowParser format) as [parse|] eqn:Hp.
  - rewrite (parseLogRow_known _ _ _ _ Hp). by eapply rowParser_total_on_objects.
  - unfold parseLogRow. rewrite Hp.
    destruct (detect_objects headers [RowObject props]) as [f Hf].
    { apply Forall_cons_2; [by exists props | apply Forall_nil_2]. }
    rewrite Hf. cbn [mbind completion_bind].
    destruct (detect_has_parser _ _ _ Hf) as [-> | [parse Hparse]].
    + rewrite bool_decide_eq_false_2 by (intros ?; done).
      by eapply (rowParser_total_on_objects linux_syslog).
    + case_bool_decide.
      * rewrite Hparse. by eapply rowParser_total_on_objects.
      * by eapply (rowParser_total_on_objects linux_syslog).
Qed.

Lemma sshTest_null headers :
  exists m, sshTest headers RowNull = Throw (TypeError m).
Proof. eexists. reflexivity. Qed.

Lemma rowParser_null_TypeError format parse headers :
  rowParser format = Some parse -> exists m, parse RowNull headers = Throw (TypeError m).
Proof. destruct format; intros [= <-]; eexists; reflexivity. Qed.

(** On an object row every format ends in one of the six parsers. *)
Lemma parseLogRow_object_dispatch props headers format :
  exists f parse,
    rowParser f = Some parse
    /\ parseLogRow (RowObject props) headers format = parse (RowObject props) headers.
Proof.
  destruct (rowParser format) as [parse|] eqn:Hp.
  - exists format, parse. split; [done|]. by apply parseLogRow_known.
  - unfold parseLogRow. rewrite Hp.
    destruct (detect_objects headers [RowObject props]) as [f Hf].
    { apply Forall_cons_2; [by exists props | apply Forall_nil_2]. }
    rewrite Hf. cbn [mbind completion_bind].
    destruct (detect_has_parser _ _ _ Hf) as [-> | [parse Hparse]].
    + rewrite bool_decide_eq_false_2 by (intros ?; done).
      by exists linux_syslog, parseLinuxSyslog.
    + case_bool_decide.
      * rewrite Hparse. by exists f, parse.
      * by exists linux_syslog, parseLinuxSyslog.
Qed.

(** On [null] every format throws a [TypeError]: a parser at its first
    property access, or the detector at the first column of the row. *)
Lemma parseLogRow_null headers format :
  exists m, parseLogRow RowNull headers format = Throw (TypeError m).
Proof.
  destruct (rowParser format) as [parse|] eqn:Hp.
  - rewrite (parseLogRow_known _ _ _ _ Hp). by eapply rowParser_null_TypeError.
  - unfold parseLogRow. rewrite Hp.
    destruct (detectLogFormat headers [RowNull]) as [f|e] eqn:Hf.
    + cbn [mbind completion_bind].
      destruct (detect_has_parser _ _ _ Hf) as [-> | [parse Hparse]].
      * rewrite bool_decide_eq_false_2 by (intros ?; done).
        by eapply (rowParser_null_TypeError linux_syslog).
      * case_bool_decide.
        -- rewrite Hparse. by eapply rowParser_null_TypeError.
        -- by eapply (rowParser_null_TypeError linux_syslog).
    + cbn [mbind completion_bind]. rewrite detectLogFormat_eq in Hf.
      repeat (match type of Hf with (if ?b then Normal _ else _) = _ =>
                                      destruct b; [discriminate|] end).
      simpl in Hf. injection Hf as <-. eauto.
Qed.

(** X3.  Of an object row and the row [null], [parseLogRow] throws on
    [null] and only there, under every format, the automatic one and the
    ones without a parser included; and whatever it throws is a
    [TypeError], never the [RangeError] of an endless re-dispatch. *)
Theorem parseLogRow_throws_only_TypeError row headers format :
  ((exists e, parseLogRow row headers format = Throw e) <-> row = RowNull)
  /\ (forall e, parseLogRow row headers format = Throw e -> exists m, e = TypeError m).
Proof.
  destruct row as [props|].
  - destruct (parseLogRow_object_dispatch props headers format) as (f & parse & Hp & ->).
    destruct (rowParser_total_on_objects f parse props headers Hp) as [r ->].
    split; [split; [by intros [e ?] | done] | done].
  - destruct (parseLogRow_null headers format) as [m Hm]. rewrite Hm.
    split; [split; [done | by eauto] |]. intros e [= <-]. by exists m.
Qed.

(** ** Ingestion does not fail on a bad row *)

Lemma parseRowOrFallback_null now headers format :
  parseRowOrFallback now headers format RowNull = fallbackEntry now RowNull format.
Proof.
  unfold parseRowOrFallback. destruct (parseLogRow_null headers format) as [m ->]. done.
Qed.

(** X4.  With at least one data row ingestion resolves whenever the format
    is given explicitly, and under automatic detection whenever the (at
    most five) sampled rows are objects: no later row, whatever it is,
    makes it reject. *)
Theorem parseCSV_resolves clock results format :
  data results <> [] ->
  format <> auto \/ Forall IsObject (take 5 (data results)) ->
  exists logs, parseCSV clock results format = Resolved logs.
Proof.
  intros Hne Hok. unfold parseCSV.
  destruct (data results) as [|row rows] eqn:Hdata; [done|].
  destruct Hok as [Hf | Hobj].
  - rewrite bool_decide_eq_false_2 by done. eauto.
  - case_bool_decide; [|eauto].
    destruct (detect_objects (default [] (fields results)) _ Hobj) as [f ->]. eauto.
Qed.

Lemma parseCSV_resolves_witness :
  exists logs,
    parseCSV (fun _ => "now")
             (mkResults [RowObject [("Time", Str "t"); ("Content", Str "x")]; RowNull]
                        (Some ["Time"; "Content"]))
             windows
    = Resolved logs.
Proof.
  apply parseCSV_resolves; [discriminate | left; discriminate].
Defined.

(** X5.  The row [null] does not disappear.  When ingestion resolves,
    the record substituted for a [null] row is among the records returned:
    component unknown, level Info, the serialisation of [null] as content,
    the time read at that row and, as source, the name of the format in
    force, which is the requested one unless that is the automatic one. *)
Theorem parseCSV_substitutes_null_row clock results format logs i :
  parseCSV clock results format = Resolved logs ->
  data results !! i = Some RowNull ->
  exists detected,
    (format <> auto -> detected = format)
    /\ mkLogEntry (clock i) "unknown" "Info" (stringifyRow RowNull)
                  (Some (formatName detected)) None None ∈ logs
    /\ stringifyRow RowNull = "null".
Proof.
  unfold parseCSV. destruct (data results) as [|row rows] eqn:Hdata; [done|].
  destruct (if bool_decide (format = auto) then _ else _) as [detected|e] eqn:Hdet;
    [|done].
  intros Hres Hi. injection Hres as <-.
  exists detected. split; [|split; [|reflexivity]].
  - intros Hf. rewrite bool_decide_eq_false_2 in Hdet by done. congruence.
  - apply list_elem_of_filter. split; [reflexivity|].
    change (mkLogEntry (clock i) "unknown" "Info" (stringifyRow RowNull)
                       (Some (formatName detected)) None None)
      with (fallbackEntry (clock i) RowNull detected).
    rewrite <- (parseRowOrFallback_null (clock i) (default [] (fields results)) detected).
    by apply (elem_of_lookup_imap_2
                (fun i row => parseRowOrFallback (clock i) (default [] (fields results))
                                detected row) (row :: rows) RowNull i).
Qed.

Lemma parseCSV_substitutes_null_row_witness :
  mkLogEntry "now" "unknown" "Info" "null" (Some "windows") None None
  ∈ [mkLogEntry "t" "" "" "x" (Some "Windows") None None;
     mkLogEntry "now" "unknown" "Info" "null" (Some "windows") None None].
Proof.
  destruct (parseCSV_substitutes_null_row (fun _ => "now")
              (mkResults [RowObject [("Time", Str "t"); ("Content", Str "x")]; RowNull]
                         (Some ["Time"; "Content"]))
              windows
              [mkLogEntry "t" "" "" "x" (Some "Windows") None None;
               mkLogEntry "now" "unknown" "Info" "null" (Some "windows") None None]
              1%nat) as (detected & Hd & Hin & _); [reflexivity | reflexivity |].
  rewrite (Hd ltac:(discriminate)) in Hin. exact Hin.
Defined.

(** ** More on the level normaliser *)

(** X6.  Normalising twice is normalising once: the four canonical levels
    are fixed by the normaliser, and so is every level it passes through. *)
Theorem normalizeLevel_idempotent (level : string) :
  normalizeLevel (normalizeLevel level) = normalizeLevel level.
Proof.
  pose proof (normalizeLevel_sound level) as H.
  remember (normalizeLevel level) as out eqn:Hout.
  destruct H; try reflexivity. congruence.
Qed.

Lemma normalizeLevel_canonical_or_same (level : string) :
  normalizeLevel level ∈ ["Error"; "Warning"; "Info"; "Debug"]
  \/ (normalizeLevel level = level /\ Unmatched level).
Proof.
  pose proof (normalizeLevel_sound level) as H.
  remember (normalizeLevel level) as out eqn:Hout.
  destruct H; try (left; solve [in_list]). right. by split.
Qed.

Lemma lower_of_normalized (level word canon : string) :
  canon ∈ ["Error"; "Warning"; "Info"; "Debug"] ->
  toLowerCase canon = word ->
  MatchesGroup errorWords word \/ MatchesGroup warningWords word
  \/ MatchesGroup infoWords word \/ MatchesGroup debugWords word ->
  trim word = word ->
  toLowerCase (normalizeLevel level) = word <-> normalizeLevel level = canon.
Proof.
  intros Hcanon Hlow Hword Htrim. split; [|by intros ->].
  destruct (normalizeLevel_canonical_or_same level) as [Hin | [Hsame [Hno _]]].
  - intros H. rewrite <- Hlow in H. clear -Hin Hcanon H.
    repeat (apply elem_of_cons in Hin as [Hin | Hin];
            [rewrite Hin in *;
             repeat (apply elem_of_cons in Hcanon as [-> | Hcanon];
                     [first [done | by vm_compute in H]|]);
             by apply elem_of_nil in Hcanon|]).
    by apply elem_of_nil in Hin.
  - rewrite Hsame. intros H. exfalso.
    assert (folded level = word) as Hf by (unfold folded; by rewrite H).
    destruct Hno as (H1 & H2 & H3 & H4). rewrite Hf in H1, H2, H3, H4. tauto.
Qed.

Lemma append_empty_r (s : string) : s +:+ "" = s.
Proof.
  induction s as [|c s IH]; [done|].
  change (String c (s +:+ "") = String c s). by rewrite IH.
Qed.

Lemma word_in_group (w : string) (words : list string) : w ∈ words -> MatchesGroup words w.
Proof. intros H. exists w. split; [done|]. exists "", "". symmetry. apply append_empty_r. Qed.

Lemma length_filter_agree {A} (P Q : A -> Prop) `{forall x, Decision (P x)}
    `{forall x, Decision (Q x)} (l : list A) :
  Forall (fun x => P x <-> Q x) l -> length (filter P l) = length (filter Q l).
Proof.
  induction 1 as [|x l Hx _ IH]; [done|]. rewrite !filter_cons.
  destruct (decide (P x)), (decide (Q x)); simpl; tauto || lia.
Qed.

(** X7.  On levels that come out of the normaliser the loose comparison of
    the statistics and the canonical spelling agree: the error count is the
    number of records whose level is exactly Error, the warning count the
    number of those whose level is exactly Warning. *)
Theorem calculateStats_on_normalized_levels (logs : list LogEntry) :
  Forall (fun log => Normalized (level log)) logs ->
  errorCount (calculateStats (Unified logs))
  = length (filter (fun log => level log = "Error") logs)
  /\ warningCount (calculateStats (Unified logs))
     = length (filter (fun log => level log = "Warning") logs).
Proof.
  intros Hnorm. unfold calculateStats. cbn [errorCount warningCount unify].
  split; apply length_filter_agree; (eapply Forall_impl; [exact Hnorm|]);
    intros log [raw ->]; rewrite strEq_true.
  - apply lower_of_normalized; [in_list | done | | done].
    left. apply word_in_group. unfold errorWords. in_list.
  - apply lower_of_normalized; [in_list | done | | done].
    right. left. apply word_in_group. unfold warningWords. in_list.
Qed.

Lemma calculateStats_on_normalized_levels_witness :
  errorCount (calculateStats (Unified [mkLogEntry "" "a" (normalizeLevel "ERR") "x" None None None;
                                       mkLogEntry "" "b" (normalizeLevel "notice") "y" None None None]))
  = length (filter (fun log => level log = "Error")
                   [mkLogEntry "" "a" (normalizeLevel "ERR") "x" None None None;
                    mkLogEntry "" "b" (normalizeLevel "notice") "y" None None None]).
Proof.
  apply calculateStats_on_normalized_levels.
  apply Forall_cons_2; [by exists "ERR"|].
  apply Forall_cons_2; [by exists "notice" | apply Forall_nil_2].
Defined.

(** ** More on the format detector *)

(** X8.  The detector answers one of the six formats that have a parser,
    or automatic; the formats openstack and thunderbird are never
    detected. *)
Theorem detectLogFormat_never_unsupported headers rows f :
  detectLogFormat headers rows = Normal f ->
  f <> openstack /\ f <> thunderbird.
Proof.
  intros H. apply detectLogFormat_sound in H. by destruct H.
Qed.

Lemma detectLogFormat_never_unsupported_witness :
  windows <> openstack /\ windows <> thunderbird.
Proof.
  apply (detectLogFormat_never_unsupported ["LineId"; "Component"; "Level"] []).
  reflexivity.
Defined.

Lemma hasHeaderb_same_set (h1 h2 : list string) :
  (forall name, HasHeader h1 name <-> HasHeader h2 name) ->
  forall name, hasHeaderb h1 name = hasHeaderb h2 name.
Proof.
  intros H name. specialize (H name). rewrite <- !hasHeaderb_spec in H.
  destruct (hasHeaderb h1 name), (hasHeaderb h2 name); try done.
  - by destruct (proj1 H).
  - by destruct (proj2 H).
Qed.

(** X9.  When one of the five header rules applies, the answer depends only
    on the set of case-folded header names: not on the case or the order
    of the headers, and not on the sampled rows, which are not read. *)
Theorem detectLogFormat_by_header_set h1 h2 rows1 rows2 :
  SomeHeaderRule h1 ->
  (forall name, HasHeader h1 name <-> HasHeader h2 name) ->
  detectLogFormat h1 rows1 = detectLogFormat h2 rows2
  /\ exists f, detectLogFormat h1 rows1 = Normal f.
Proof.
  intros Hrule Hsame.
  pose proof (hasHeaderb_same_set h1 h2 Hsame) as Hb.
  rewrite !detectLogFormat_eq, <- !Hb.
  destruct (_ && _ && _) eqn:Hw; [by eauto|].
  apply (proj1 (bool_false_iff _ _ (WindowsRule_b h1))) in Hw.
  destruct (_ && (_ || _)) eqn:Hl; [by eauto|].
  apply (proj1 (bool_false_iff _ _ (LinuxRule_b h1))) in Hl.
  destruct (_ || _ || _) eqn:Ha; [by eauto|].
  apply (proj1 (bool_false_iff _ _ (ApacheRule_b h1))) in Ha.
  destruct (_ && (_ || _)) eqn:Hh; [by eauto|].
  apply (proj1 (bool_false_iff _ _ (HadoopRule_b h1))) in Hh.
  destruct (_ && _) eqn:Hs; [by eauto|].
  apply (proj1 (bool_false_iff _ _ (SparkRule_b h1))) in Hs.
  exfalso.
  unfold SomeHeaderRule in Hrule. tauto.
Qed.

Lemma detectLogFormat_by_header_set_witness :
  detectLogFormat ["Timestamp"; "Hostname"; "Logger"] [RowNull]
  = detectLogFormat ["LOGGER"; "hostname"; "timestamp"; "Hostname"] [].
Proof.
  apply detectLogFormat_by_header_set.
  - right. left. split; [|left].
    + exists "Timestamp". split; [in_list | reflexivity].
    + exists "Hostname". split; [in_list | reflexivity].
  - intros name. split; intros (h & Hin & <-).
    + repeat (apply elem_of_cons in Hin as [-> | Hin];
              [by apply hasHeaderb_spec|]).
      by apply elem_of_nil in Hin.
    + repeat (apply elem_of_cons in Hin as [-> | Hin];
              [by apply hasHeaderb_spec|]).
      by apply elem_of_nil in Hin.
Defined.

(** ** Automatic detection and explicit formats *)

(** X10.  Giving ingestion the format its detector answers on the sampled
    rows changes nothing; and under automatic detection a row is parsed
    as under the format the detector answers on that row alone, by the
    Linux syslog parser when that answer is automatic. *)
Theorem parseCSV_auto_is_detected_format clock results f :
  detectLogFormat (default [] (fields results)) (take 5 (data results)) = Normal f ->
  parseCSV clock results auto = parseCSV clock results f
  /\ (forall row headers g,
         detectLogFormat headers [row] = Normal g ->
         parseLogRow row headers auto
         = if bool_decide (g = auto) then parseLinuxSyslog row headers
           else parseLogRow row headers g).
Proof.
  intros Hf. split.
  - destruct (decide (f = auto)) as [-> | Hne]; [done|].
    unfold parseCSV. destruct (data results) as [|row rows]; [done|].
    rewrite (bool_decide_eq_true_2 (auto = auto)) by done. rewrite Hf.
    by rewrite (bool_decide_eq_false_2 (f = auto)).
  - intros row headers g Hg.
    destruct (detect_has_parser _ _ _ Hg) as [-> | [parse Hparse]].
    + unfold parseLogRow at 1. cbn [rowParser]. rewrite Hg. cbn [mbind completion_bind].
      rewrite bool_decide_eq_false_2 by (by intros ?).
      by rewrite bool_decide_eq_true_2.
    + assert (g <> auto) by (intros ->; discriminate).
      rewrite (bool_decide_eq_false_2 (g = auto)) by done.
      rewrite (parseLogRow_known _ _ _ _ Hparse).
      unfold parseLogRow. cbn [rowParser]. rewrite Hg. cbn [mbind completion_bind].
      by rewrite bool_decide_eq_true_2, Hparse.
Qed.

Lemma parseCSV_auto_is_detected_format_witness :
  parseCSV (fun _ => "")
           (mkResults [RowObject [("LineId", Str "1"); ("Component", Str "a"); ("Level", Str "Info");
                                  ("Content", Str "x")]]
                      (Some ["LineId"; "Component"; "Level"; "Content"]))
           auto
  = parseCSV (fun _ => "")
             (mkResults [RowObject [("LineId", Str "1"); ("Component", Str "a"); ("Level", Str "Info");
                                    ("Content", Str "x")]]
                        (Some ["LineId"; "Component"; "Level"; "Content"]))
             windows.
Proof.
  apply parseCSV_auto_is_detected_format. reflexivity.
Defined.

(** ** Frequencies *)

Lemma sumZ_app (l1 l2 : list Z) : sumZ (l1 ++ l2) = sumZ l1 + sumZ l2.
Proof. unfold sumZ. induction l1 as [|x l1 IH]; simpl; lia. Qed.

Lemma sumZ_perm (l1 l2 : list Z) : l1 ≡ₚ l2 -> sumZ l1 = sumZ l2.
Proof. unfold sumZ. induction 1; simpl; lia. Qed.

Lemma sumZ_take (n : nat) (l : list Z) :
  Forall (fun x => 0 <= x) l -> sumZ (take n l) <= sumZ l.
Proof.
  intros H. revert n. induction H as [|x l Hx _ IH]; intros [|n]; simpl; try done.
  - unfold sumZ in *. simpl. specialize (IH 0%nat). simpl in IH. lia.
  - unfold sumZ in *. simpl. specialize (IH n). lia.
Qed.

Lemma counts_bump acc k c :
  ownCluster acc k = Some c -> sumZ (counts (bump acc k)) = sumZ (counts acc) + 1.
Proof.
  unfold counts, sumZ. induction acc as [|[k' c'] acc IH]; simpl; [done|].
  destruct (strEq k' k); simpl; [lia|]. intros H. specialize (IH H). lia.
Qed.

(** Each step of the [reduce] counts its record once. *)
Lemma counts_step acc log :
  sumZ (counts (step acc log)) = sumZ (counts acc) + 1.
Proof.
  unfold step. destruct (ownCluster acc (keyOf log)) as [c|] eqn:Hown.
  - by eapply counts_bump.
  - rewrite keyOf_not_inherited, bump_fresh by done.
    unfold counts. rewrite !map_app, sumZ_app. by simpl.
Qed.

Lemma counts_clustersOf logs : sumZ (counts (clustersOf logs)) = Z.of_nat (length logs).
Proof.
  unfold clustersOf.
  assert (forall acc, sumZ (counts (fold_left step logs acc))
                      = sumZ (counts acc) + Z.of_nat (length logs)) as Hgen.
  { induction logs as [|log logs IH]; intros acc; simpl length; simpl fold_left; [lia|].
    rewrite IH, counts_step. lia. }
  by rewrite Hgen.
Qed.

Lemma occurrences_positive k logs first :
  firstWith k logs = Some first -> 1 <= occurrences k logs.
Proof.
  intros H. apply firstWith_Some in H as [Hin Hk]. unfold occurrences.
  assert (first ∈ filter (fun log => keyOf log = k) logs) as Hf
    by (by apply list_elem_of_filter).
  destruct (filter _ logs); [by apply elem_of_nil in Hf | simpl; lia].
Qed.

Lemma cluster_counts_positive logs :
  Forall (fun x => 1 <= x) (counts (clustersOf logs)).
Proof.
  unfold counts. apply Forall_forall. intros x Hx.
  apply list_elem_of_fmap in Hx as (c & -> & Hc).
  apply list_elem_of_fmap in Hc as ([k c'] & -> & Hin).
  destruct (clustersOf_ClustersFor logs) as (_ & _ & Hsum).
  destruct (Hsum _ _ Hin) as (_ & Hc & first & Hfirst & _).
  simpl. rewrite Hc. by eapply occurrences_positive.
Qed.

Lemma digest_frequencies input :
  map frequency (processLogs input)
  = take 100 (map count (sortWith compareClusters (map snd (clustersOf (unify input))))).
Proof. unfold processLogs. by rewrite map_map, <- firstn_map. Qed.

Lemma frequencies_of_unify (input : LogInput) :
  Forall (fun e => 1 <= frequency e) (processLogs input)
  /\ totalFrequency (processLogs input) <= Z.of_nat (length (unify input))
  /\ ((size (distinctKeys (unify input)) <= 100)%nat ->
      totalFrequency (processLogs input) = Z.of_nat (length (unify input))).
Proof.
  pose proof (cluster_counts_positive (unify input)) as Hpos.
  pose proof (counts_clustersOf (unify input)) as Hsum.
  assert (map count (sortWith compareClusters (map snd (clustersOf (unify input))))
          ≡ₚ counts (clustersOf (unify input))) as Hperm
    by apply Permutation_map, sortWith_perm.
  unfold totalFrequency. rewrite digest_frequencies.
  split; [|split].
  - assert (Forall (fun x => 1 <= x) (map frequency (processLogs input))) as H.
    { rewrite digest_frequencies. apply Forall_take. by rewrite Hperm. }
    apply Forall_forall. intros e He. rewrite Forall_forall in H. apply H.
    apply list_elem_of_fmap. by exists e.
  - rewrite <- Hsum, <- (sumZ_perm _ _ Hperm). apply sumZ_take.
    rewrite Hperm. eapply Forall_impl; [exact Hpos|]. intros x Hx. simpl in Hx. lia.
  - intros Hsize. rewrite take_ge, (sumZ_perm _ _ Hperm); [done|].
    rewrite (Permutation_length Hperm). unfold counts.
    by rewrite !length_map, clusters_count_distinct.
Qed.

(** X11.  Every digest entry has a frequency of at least 1, the
    frequencies add up to at most the number of records of the argument,
    unified or legacy, and to exactly that number when it holds at most 100
    distinct fingerprints: no record is counted twice, and none is lost
    unless its cluster is cut off. *)
Theorem processLogs_frequencies_account_for_records (input : LogInput) :
  Forall (fun e => 1 <= frequency e) (processLogs input)
  /\ totalFrequency (processLogs input) <= Z.of_nat (recordCount input)
  /\ ((size (fingerprintsOf input) <= 100)%nat ->
      totalFrequency (processLogs input) = Z.of_nat (recordCount input)).
Proof.
  rewrite <- unify_recordCount, <- unify_fingerprints. apply frequencies_of_unify.
Qed.

(** ** The ranking of any two entries, and what is cut off *)

Lemma StronglySorted_lookup {A} (R : A -> A -> Prop) (l : list A) i j a b :
  StronglySorted R l -> (i < j)%nat -> l !! i = Some a -> l !! j = Some b -> R a b.
Proof.
  intros Hs. revert i j. induction Hs as [|x l Hs IH Hall]; intros i j Hij Ha Hb; [done|].
  destruct j as [|j]; [lia|]. destruct i as [|i]; simpl in *.
  - injection Ha as ->. rewrite Forall_forall in Hall. apply Hall.
    by eapply list_elem_of_lookup_2.
  - apply (IH i j); [lia | done | done].
Qed.

(** On plain levels the sorted clusters of a list of records. *)
Lemma sorted_clusters (logs : list LogEntry) :
  PlainLevels logs ->
  StronglySorted Precedes (sortWith compareClusters (map snd (clustersOf logs))).
Proof. intros Hlogs. by apply sortWith_sorted, clusters_plain. Qed.

(** X12.  When no level of the input is a property name inherited from
    [Object.prototype], so that the comparator never returns NaN, any two
    entries of the digest, neighbours or not, are ranked: the earlier one
    has the higher frequency, or the same frequency and a level priority
    (Error 3, Warning 2, Info 1, anything else 0) that is not lower. *)
Theorem processLogs_ranks_any_two (logs : list LogEntry) i j a b :
  PlainLevels logs ->
  (i < j)%nat ->
  processLogs (Unified logs) !! i = Some a ->
  processLogs (Unified logs) !! j = Some b ->
  RankedBefore a b.
Proof.
  intros Hlogs Hij Ha Hb. unfold processLogs in Ha, Hb. cbn [unify] in Ha, Hb.
  rewrite list_lookup_fmap in Ha. rewrite list_lookup_fmap in Hb.
  destruct (take 100 _ !! i) as [ca|] eqn:Hca; [|done].
  destruct (take 100 _ !! j) as [cb|] eqn:Hcb; [|done].
  injection Ha as <-. injection Hb as <-.
  apply lookup_take_Some in Hca as [Hca _]. apply lookup_take_Some in Hcb as [Hcb _].
  exact (StronglySorted_lookup _ _ _ _ _ _ (sorted_clusters _ Hlogs) Hij Hca Hcb).
Qed.

Lemma processLogs_ranks_any_two_witness :
  RankedBefore (mkLogDigest "a" "Info" 2 "x" "a-Info")
               (mkLogDigest "c" "Debug" 1 "w" "c-Debug").
Proof.
  apply (processLogs_ranks_any_two
           [mkLogEntry "" "c" "Debug" "w" None None None;
            mkLogEntry "" "b" "Error" "y" None None None;
            mkLogEntry "" "a" "Info" "x" None None None;
            mkLogEntry "" "a" "Info" "z" None None None]
           0%nat 2%nat); [|lia | reflexivity | reflexivity].
  intros log Hin. rewrite !elem_of_cons, elem_of_nil in Hin.
  destruct Hin as [->|[->|[->|[->|[]]]]]; reflexivity.
Defined.

(** X13.  When no level of the input is a property name inherited from
    [Object.prototype], the digest keeps the most frequent patterns: a
    record whose fingerprint (component, hyphen, level) has no entry in the
    digest shares that fingerprint with no more records of the input than
    the frequency of any entry of the digest. *)
Theorem processLogs_keeps_most_frequent (logs : list LogEntry) r e :
  PlainLevels logs ->
  r ∈ logs ->
  component r +:+ "-" +:+ level r ∉ map fingerprint (processLogs (Unified logs)) ->
  e ∈ processLogs (Unified logs) ->
  Z.of_nat (length (filter (fun log => component log +:+ "-" +:+ level log
                                       = component r +:+ "-" +:+ level r) logs))
  <= frequency e.
Proof.
  intros Hlogs Hr Hnot He.
  destruct (clustersOf_ClustersFor logs) as (Hnd & Hkeys & Hsum).
  assert (keyOf r ∈ map fst (clustersOf logs)) as Hk.
  { apply Hkeys, list_elem_of_fmap. by exists r. }
  apply list_elem_of_fmap in Hk as ([k' c] & Hkey & Hin). simpl in Hkey.
  destruct (Hsum _ _ Hin) as (Hf & Hc & _).
  change (occurrences (keyOf r) logs <= frequency e). rewrite Hkey, <- Hc.
  pose proof (sorted_clusters logs Hlogs) as Hs.
  set (sorted := sortWith compareClusters (map snd (clustersOf logs))) in *.
  assert (c ∈ sorted) as Hcs.
  { unfold sorted. rewrite sortWith_perm. apply list_elem_of_fmap. by exists (k', c). }
  rewrite <- (take_drop 100 sorted) in Hcs.
  apply elem_of_app in Hcs as [Hcs | Hcs].
  - destruct Hnot. apply list_elem_of_fmap. exists (toDigest c).
    split; [by rewrite <- Hkey in Hf|].
    unfold processLogs. cbn [unify]. fold sorted. apply list_elem_of_fmap. by exists c.
  - unfold processLogs in He. cbn [unify] in He. fold sorted in He.
    apply list_elem_of_fmap in He as (c' & -> & Hc').
    rewrite <- (take_drop 100 sorted) in Hs.
    pose proof (StronglySorted_app_1_elem_of _ _ _ _ _ Hs Hc' Hcs) as Hp.
    unfold Precedes in Hp. cbn [frequency toDigest]. lia.
Qed.

Lemma existsb_strEq_elem (k : string) (l : list string) :
  k ∈ l -> existsb (strEq k) l = true.
Proof.
  intros H. apply existsb_exists. exists k. split; [by apply list_elem_of_In | apply strEq_refl].
Qed.

Lemma processLogs_keeps_most_frequent_witness :
  Z.of_nat (length (filter (fun log => component log +:+ "-" +:+ level log
                                       = "svc100" +:+ "-" +:+ "Info") manyPatterns))
  <= frequency (mkLogDigest "svc0" "Info" 2 "again" "svc0-Info").
Proof.
  apply (processLogs_keeps_most_frequent manyPatterns
           (mkLogEntry "" "svc100" "Info" "once" None None None)).
  - intros log Hin. unfold manyPatterns in Hin.
    apply elem_of_cons in Hin as [-> | Hin]; [reflexivity|].
    apply list_elem_of_fmap in Hin as (n & -> & _). reflexivity.
  - apply (list_elem_of_lookup_2 _ 101%nat). by vm_compute.
  - intros H. apply existsb_strEq_elem in H. vm_compute in H. discriminate.
  - apply (list_elem_of_lookup_2 _ 0%nat). by vm_compute.
Defined.

(** ** What the digest reads of a record *)

(** X14.  The fingerprint of a digest entry is the entry's own component
    and level joined by a hyphen: entries are labelled consistently even
    when records of different component and level have been merged. *)
Theorem processLogs_fingerprint_of_entry (input : LogInput) e :
  e ∈ processLogs input ->
  fingerprint e = d_component e +:+ "-" +:+ d_level e.
Proof.
  intros He.
  destruct (digest_entry_cluster _ _ He)
    as (c & -> & _ & _ & _ & first & Hfirst & Hc & Hl & _).
  apply firstWith_Some in Hfirst as [_ Hkey]. simpl.
  by rewrite Hc, Hl, <- Hkey.
Qed.

Lemma processLogs_fingerprint_of_entry_witness :
  fingerprint (mkLogDigest "a-b" "c" 2 "first" "a-b-c")
  = d_component (mkLogDigest "a-b" "c" 2 "first" "a-b-c") +:+ "-"
    +:+ d_level (mkLogDigest "a-b" "c" 2 "first" "a-b-c").
Proof.
  apply (processLogs_fingerprint_of_entry
           (Unified [mkLogEntry "" "a-b" "c" "first" None None None;
                     mkLogEntry "" "a" "b-c" "second" None None None])).
  apply (list_elem_of_lookup_2 _ 0%nat). reflexivity.
Defined.

Lemma step_essence acc log1 log2 :
  essence log1 = essence log2 -> step acc log1 = step acc log2.
Proof.
  unfold essence, step, keyOf. by intros [= -> -> ->].
Qed.

Lemma clustersOf_essence logs1 logs2 :
  map essence logs1 = map essence logs2 -> clustersOf logs1 = clustersOf logs2.
Proof.
  unfold clustersOf. generalize (@nil (string * Cluster)).
  revert logs2. induction logs1 as [|x l1 IH]; intros [|y l2] acc H; try done.
  assert (essence x = essence y /\ map essence l1 = map essence l2) as [Hxy Hrest]
    by (simpl in H; split; congruence).
  simpl. rewrite (step_essence acc x y Hxy). by apply IH.
Qed.

Lemma level_filter_essence (P : string -> Prop) `{forall l, Decision (P l)} logs1 logs2 :
  map essence logs1 = map essence logs2 ->
  length (filter (fun log => P (level log)) logs1)
  = length (filter (fun log => P (level log)) logs2).
Proof.
  revert logs2. induction logs1 as [|x l1 IH]; intros [|y l2] Heq; try done.
  assert (essence x = essence y /\ map essence l1 = map essence l2) as [Hxy Hrest]
    by (simpl in Heq; split; congruence).
  rewrite !filter_cons.
  assert (level x = level y) as Hl by (unfold essence in Hxy; congruence).
  specialize (IH _ Hrest). rewrite Hl.
  destruct (decide (P (level y))); simpl; lia.
Qed.

Lemma keys_essence logs1 logs2 :
  map essence logs1 = map essence logs2 -> map keyOf logs1 = map keyOf logs2.
Proof.
  revert logs2. induction logs1 as [|x l1 IH]; intros [|y l2] Heq; try done.
  assert (essence x = essence y /\ map essence l1 = map essence l2) as [Hxy Hrest]
    by (simpl in Heq; split; congruence).
  simpl. f_equal; [|by apply IH].
  unfold essence in Hxy. unfold keyOf. congruence.
Qed.

(** Lists that agree on component, level and content, record by record. *)
Lemma processLogs_essence (logs1 logs2 : list LogEntry) :
  map essence logs1 = map essence logs2 ->
  processLogs (Unified logs1) = processLogs (Unified logs2).
Proof. intros H. unfold processLogs. cbn [unify]. by rewrite (clustersOf_essence _ _ H). Qed.

Lemma calculateStats_essence (logs1 logs2 : list LogEntry) :
  map essence logs1 = map essence logs2 ->
  calculateStats (Unified logs1) = calculateStats (Unified logs2).
Proof.
  intros H. unfold calculateStats. cbn [unify].
  rewrite (keys_essence _ _ H). f_equal.
  - by rewrite <- (length_map essence logs1), H, length_map.
  - by apply (@level_filter_essence
                (fun l => strEq (toLowerCase l) "error" = true)
                (fun l => decide_rel eq (strEq (toLowerCase l) "error") true)).
  - by apply (@level_filter_essence
                (fun l => strEq (toLowerCase l) "warning" = true)
                (fun l => decide_rel eq (strEq (toLowerCase l) "warning") true)).
Qed.

(** X15.  The digest and the statistics read the component, the level and
    the content of a record and nothing else: two record lists that agree
    on these, record by record, have the same digest and the same
    statistics, whatever their timestamps, sources, host names and process
    ids. *)
Theorem digest_reads_component_level_content (logs1 logs2 : list LogEntry) :
  map essence logs1 = map essence logs2 ->
  processLogs (Unified logs1) = processLogs (Unified logs2)
  /\ calculateStats (Unified logs1) = calculateStats (Unified logs2).
Proof.
  intros H. split.
  - by apply processLogs_essence.
  - by apply calculateStats_essence.
Qed.

Lemma digest_reads_component_level_content_witness :
  processLogs (Unified [mkLogEntry "t1" "a" "Error" "x" (Some "Linux") (Some "h") (Some "1")])
  = processLogs (Unified [mkLogEntry "t2" "a" "Error" "x" (Some "Windows") None None]).
Proof.
  apply digest_reads_component_level_content. reflexivity.
Defined.

(** ** The legacy export *)

Lemma map_imap_const {A B C} (g : B -> C) (h : A -> C) (f : nat -> A -> B) (l : list A) :
  (forall i x, g (f i x) = h x) -> map g (imap f l) = map h l.
Proof.
  revert f. induction l as [|x l IH]; intros f Hf; simpl; [done|].
  rewrite Hf. f_equal. apply IH. intros i y. apply Hf.
Qed.

Lemma map_imap {A B C} (g : B -> C) (f : nat -> A -> B) (l : list A) :
  map g (imap f l) = imap (fun i x => g (f i x)) l.
Proof.
  revert f. induction l as [|x l IH]; intros f; simpl; [done|]. f_equal. apply IH.
Qed.

Lemma NoDup_imap_inj {A B} (f : nat -> A -> B) (l : list A) :
  (forall i j x y, f i x = f j y -> i = j) -> NoDup (imap f l).
Proof.
  revert f. induction l as [|x l IH]; intros f Hf; simpl; [constructor|].
  constructor.
  - intros Hin. apply elem_of_lookup_imap_1 in Hin as (i & y & Heq & _).
    by apply Hf in Heq.
  - apply IH. intros i j a b Heq. apply Hf in Heq. lia.
Qed.

(** X16.  The legacy export loses nothing the digest needs: when
    [parseCSVAsWindowsLog] resolves, [parseCSV] resolves under automatic
    detection to as many records, the line ids of the legacy records are
    pairwise distinct, and the digest and the statistics of the legacy
    records, which [processLogs] and [calculateStats] convert back, are
    those of the unified records. *)
Theorem legacy_export_same_digest clock results ws :
  parseCSVAsWindowsLog clock results = ResolvedLegacy ws ->
  exists logs,
    parseCSV clock results auto = Resolved logs
    /\ length ws = length logs
    /\ NoDup (map LineId ws)
    /\ processLogs (Legacy ws) = processLogs (Unified logs)
    /\ calculateStats (Legacy ws) = calculateStats (Unified logs).
Proof.
  unfold parseCSVAsWindowsLog. destruct (parseCSV clock results auto) as [logs|m]; [|done].
  intros [= <-]. exists logs. split; [done|]. split; [by rewrite length_imap|].
  split.
  - rewrite map_imap. apply NoDup_imap_inj. intros i j x y Heq. simpl in Heq.
    apply (inj pretty) in Heq. lia.
  - assert (map essence (unify (Legacy (imap toWindowsLog logs))) = map essence logs) as He.
    { rewrite unify_legacy, map_map. by apply map_imap_const. }
    assert (forall input1 input2, unify input1 = unify input2 ->
              processLogs input1 = processLogs input2
              /\ calculateStats input1 = calculateStats input2) as Hunify.
    { intros i1 i2 Hu. unfold processLogs, calculateStats. by rewrite Hu. }
    pose proof (processLogs_essence _ _ He) as Hd.
    pose proof (calculateStats_essence _ _ He) as Hs.
    destruct (Hunify (Legacy (imap toWindowsLog logs))
                (Unified (unify (Legacy (imap toWindowsLog logs)))) eq_refl) as [Hd' Hs'].
    split; congruence.
Qed.

Lemma legacy_export_same_digest_witness :
  exists logs,
    parseCSV (fun _ => "")
             (mkResults [RowObject [("LineId", Str "7"); ("Time", Str "t"); ("Component", Str "a");
                                    ("Level", Str "Error"); ("Content", Str "x")]]
                        (Some ["LineId"; "Time"; "Component"; "Level"; "Content"]))
             auto
    = Resolved logs
    /\ length [mkWindowsLog "1" "t" "a" "Error" "x"] = length logs
    /\ NoDup (map LineId [mkWindowsLog "1" "t" "a" "Error" "x"])
    /\ processLogs (Legacy [mkWindowsLog "1" "t" "a" "Error" "x"])
       = processLogs (Unified logs)
    /\ calculateStats (Legacy [mkWindowsLog "1" "t" "a" "Error" "x"])
       = calculateStats (Unified logs).
Proof.
  apply (legacy_export_same_digest (fun _ => "")). reflexivity.
Defined.

(** ** Bounds and symmetries of the statistics *)

Lemma error_warning_disjoint (logs : list LogEntry) :
  (length (filter (fun log => strEq (toLowerCase (level log)) "error" = true) logs)
   + length (filter (fun log => strEq (toLowerCase (level log)) "warning" = true) logs)
   <= length logs)%nat.
Proof.
  induction logs as [|x logs IH]; simpl; [done|]. rewrite !filter_cons.
  destruct (decide (strEq (toLowerCase (level x)) "error" = true)) as [He|He];
    destruct (decide (strEq (toLowerCase (level x)) "warning" = true)) as [Hw|Hw];
    simpl; try lia.
  apply strEq_true in He, Hw. congruence.
Qed.

(** X17.  The statistics are bounded by the number of records: no record
    is counted both as an error and as a warning, there are at most as many
    unique patterns as records, and there is at least one unique pattern
    unless there is no record at all. *)
Theorem calculateStats_bounds (input : LogInput) :
  (errorCount (calculateStats input) + warningCount (calculateStats input)
   <= totalLogs (calculateStats input))%nat
  /\ (uniquePatterns (calculateStats input) <= totalLogs (calculateStats input))%nat
  /\ (uniquePatterns (calculateStats input) = 0%nat
      <-> totalLogs (calculateStats input) = 0%nat).
Proof.
  unfold calculateStats. cbn [errorCount warningCount totalLogs uniquePatterns].
  destruct (newSet_spec (map keyOf (unify input))) as [Hnd Hin].
  split; [apply error_warning_disjoint|]. split.
  - rewrite <- (length_map keyOf (unify input)). apply submseteq_length.
    apply NoDup_submseteq; [done|]. intros k. apply Hin.
  - rewrite !length_zero_iff_nil. split.
    + intros Hnil. destruct (unify input) as [|x l]; [done|].
      assert (keyOf x ∈ newSet (map keyOf (x :: l))) as Hx
        by (apply Hin; simpl; apply list_elem_of_here).
      rewrite Hnil in Hx. by apply elem_of_nil in Hx.
    + by intros ->.
Qed.

(** X18.  The statistics do not depend on the order of the records. *)
Theorem calculateStats_order_independent (logs1 logs2 : list LogEntry) :
  logs1 ≡ₚ logs2 ->
  calculateStats (Unified logs1) = calculateStats (Unified logs2).
Proof.
  intros Hperm. unfold calculateStats. cbn [unify]. f_equal.
  - by apply Permutation_length.
  - rewrite !newSet_size. unfold distinctKeys. f_equal.
    apply set_eq. intros k. rewrite !elem_of_list_to_set. by rewrite Hperm.
  - apply Permutation_length. by rewrite Hperm.
  - apply Permutation_length. by rewrite Hperm.
Qed.

Lemma calculateStats_order_independent_witness :
  calculateStats (Unified [mkLogEntry "" "a" "Error" "x" None None None;
                           mkLogEntry "" "b" "warning" "y" None None None])
  = calculateStats (Unified [mkLogEntry "" "b" "warning" "y" None None None;
                             mkLogEntry "" "a" "Error" "x" None None None]).
Proof.
  apply calculateStats_order_independent. apply Permutation_swap.
Defined.

(** ** The Markdown fence *)

Lemma trimStart_white (lead s : string) :
  allWhite lead = true -> trimStart (lead +:+ s) = trimStart s.
Proof.
  induction lead as [|c lead IH]; [done|]. cbn [allWhite]. rewrite andb_true_iff.
  intros [Hc Hl]. change (trimStart (String c (lead +:+ s)) = trimStart s).
  cbn [trimStart]. rewrite Hc. by apply IH.
Qed.

Lemma trimEnd_allWhite (s : string) : allWhite s = true -> trimEnd s = "".
Proof.
  induction s as [|c s IH]; [done|]. cbn [allWhite]. rewrite andb_true_iff.
  intros [Hc Hs]. cbn [trimEnd]. by rewrite IH, Hc.
Qed.

Lemma trimEnd_white (s trail : string) :
  allWhite trail = true -> trimEnd (s +:+ trail) = trimEnd s.
Proof.
  intros Ht. induction s as [|c s IH].
  - change (trimEnd trail = ""). by apply trimEnd_allWhite.
  - change (trimEnd (String c (s +:+ trail)) = trimEnd (String c s)).
    cbn [trimEnd]. by rewrite IH.
Qed.

Lemma trimEnd_app_keep (a b : string) :
  trimEnd b <> "" -> trimEnd (a +:+ b) = a +:+ trimEnd b.
Proof.
  intros Hb. induction a as [|c a IH]; [done|].
  change (trimEnd (String c (a +:+ b)) = String c (a +:+ trimEnd b)).
  cbn [trimEnd]. rewrite IH. destruct (a +:+ trimEnd b) eqn:Heq; [|done].
  destruct a; [|discriminate]. by destruct Hb.
Qed.

Lemma append_assoc (a b c : string) : (a +:+ b) +:+ c = a +:+ (b +:+ c).
Proof.
  induction a as [|x a IH]; [done|].
  change (String x ((a +:+ b) +:+ c) = String x (a +:+ (b +:+ c))). by rewrite IH.
Qed.

Lemma length_append (a b : string) :
  String.length (a +:+ b) = (String.length a + String.length b)%nat.
Proof.
  induction a as [|x a IH]; [done|].
  change (S (String.length (a +:+ b)) = S (String.length a + String.length b)).
  by rewrite IH.
Qed.

(** What is inside the closing fence comes back whole. *)
Lemma dropFenceEnd_closing (j : string) :
  dropFenceEnd (j +:+ String newline "```") = j.
Proof.
  induction j as [|c j IH]; [done|].
  change (dropFenceEnd (String c (j +:+ String newline "```")) = String c j).
  cbn [dropFenceEnd].
  assert (forall t, (String.length t <= 4)%nat ->
                    strEq (String c (j +:+ String newline "```")) t = false) as Hlen.
  { intros t Ht. apply strEq_false. intros Heq.
    apply (f_equal String.length) in Heq. cbn [String.length] in Heq.
    rewrite length_append in Heq. simpl in Heq. lia. }
  rewrite !Hlen by (simpl; lia). cbn [orb]. by rewrite IH.
Qed.

Lemma trim_fenced (lead trail lang j : string) :
  allWhite lead = true -> allWhite trail = true ->
  trim (lead +:+ fenced lang j +:+ trail) = fenced lang j.
Proof.
  intros Hl Ht. unfold trim. rewrite trimStart_white by done.
  assert (trimStart (fenced lang j +:+ trail) = fenced lang j +:+ trail) as -> by done.
  rewrite trimEnd_white by done.
  unfold fenced.
  replace ("```" +:+ lang +:+ String newline (j +:+ String newline "```"))
    with (("```" +:+ lang +:+ String newline (j +:+ String newline "")) +:+ "```").
  - by rewrite trimEnd_app_keep.
  - rewrite !append_assoc. do 2 f_equal.
    change ((String newline (j +:+ String newline "")) +:+ "```")
      with (String newline ((j +:+ String newline "") +:+ "```")).
    by rewrite append_assoc.
Qed.

(** X19.  A payload the model wrapped in a Markdown fence, tagged json or
    untagged, each fence on a line of its own and with any white space
    around, is returned as it is, whatever it contains. *)
Theorem cleanJson_unwraps_fence (lead trail j : string) :
  allWhite lead = true -> allWhite trail = true ->
  cleanJson (lead +:+ fenced "json" j +:+ trail) = j
  /\ cleanJson (lead +:+ fenced "" j +:+ trail) = j.
Proof.
  intros Hl Ht. unfold cleanJson. rewrite !trim_fenced by done. split.
  - change (dropFenceEnd (j +:+ String newline "```") = j). apply dropFenceEnd_closing.
  - change (dropFenceEnd (j +:+ String newline "```") = j). apply dropFenceEnd_closing.
Qed.

Lemma cleanJson_unwraps_fence_witness :
  cleanJson (" " +:+ fenced "json" "[{}]" +:+ String newline "") = "[{}]"
  /\ cleanJson (" " +:+ fenced "" "[{}]" +:+ String newline "") = "[{}]".
Proof.
  apply cleanJson_unwraps_fence; reflexivity.
Defined.

(** ** Summaries and analysed patterns *)

Lemma clampScore_in_range (score : Q) : InRange (clampScore score).
Proof.
  unfold InRange, clampScore. split.
  - apply Q.le_max_l.
  - apply Q.max_lub; [done|apply Q.le_min_l].
Qed.

Lemma summarize_lookup (digest : list LogDigest) (responses : list AiResponse)
    (i : nat) (d : LogDigest) :
  digest !! i = Some d ->
  exists r, summarize digest responses !! i
            = Some (mkAISummary (r_humanMeaning r) (clampScore (r_severityScore r))).
Proof.
  intros Hd. unfold summarize. rewrite list_lookup_imap, Hd. by eexists.
Qed.

(** X20.  The summaries answer the digest entry by entry: as many summaries
    as entries, every score between 1 and 10 whatever number the model
    gave, and an entry whose number (counted from 1) no answer carries
    reads "Analysis pending..." with score 5. *)
Theorem summarize_one_per_entry (digest : list LogDigest)
    (responses : list AiResponse) :
  length (summarize digest responses) = length digest
  /\ Forall (fun s => InRange (severityScore s)) (summarize digest responses)
  /\ (forall (i : nat) (d : LogDigest),
        digest !! i = Some d ->
        Forall (fun r => ~ (r_index r == inject_Z (Z.of_nat i + 1))%Q) responses ->
        summarize digest responses !! i
        = Some (mkAISummary "Analysis pending..." 5)).
Proof.
  split; [|split].
  - unfold summarize. by rewrite length_imap.
  - apply Forall_lookup. intros i s Hs.
    destruct (digest !! i) as [d|] eqn:Hd.
    + destruct (summarize_lookup digest responses i d Hd) as [r Hr].
      rewrite Hr in Hs. injection Hs as <-. apply clampScore_in_range.
    + apply lookup_ge_None in Hd. apply lookup_lt_Some in Hs.
      unfold summarize in Hs. rewrite length_imap in Hs. lia.
  - intros i d Hd Hnone. unfold summarize. rewrite list_lookup_imap, Hd. simpl.
    replace (find _ responses) with (@None AiResponse); [done|].
    symmetry. induction Hnone as [|r rs Hr _ IH]; [done|].
    cbn [find]. destruct (Qeq_bool _ _) eqn:Heq; [|exact IH].
    apply Qeq_bool_iff in Heq. by destruct Hr.
Qed.

Lemma scoreOr5_in_range (score : Q) : InRange score -> scoreOr5 score = score.
Proof.
  intros [Hlo _]. unfold scoreOr5. destruct (Qeq_bool score 0) eqn:Heq; [|done].
  apply Qeq_bool_iff in Heq. rewrite Heq in Hlo. by destruct Hlo.
Qed.

Lemma scoreOr5_nonzero (score : Q) : ~ (scoreOr5 score == 0)%Q.
Proof.
  unfold scoreOr5. destruct (Qeq_bool score 0) eqn:Heq; [done|].
  intros H. apply Qeq_bool_iff in H. congruence.
Qed.

Lemma combine_lookup (digest : list LogDigest) (aiSummaries : list AISummary)
    (i : nat) (p : AnalyzedLogPattern) :
  combine digest aiSummaries !! i = Some p ->
  digest !! i = Some (entry p)
  /\ totalOccurrences p = frequency (entry p)
  /\ p_humanMeaning p <> ""
  /\ ~ (p_severityScore p == 0)%Q
  /\ (forall s, aiSummaries !! i = Some s -> InRange (severityScore s) ->
                p_severityScore p = severityScore s).
Proof.
  unfold combine. rewrite list_lookup_imap.
  destruct (digest !! i) as [d|] eqn:Hd; [|done]. simpl.
  destruct (aiSummaries !! i) as [s|] eqn:Hs; intros [= <-]; simpl.
  - repeat split; [| apply scoreOr5_nonzero |].
    + unfold orElse. by destruct (humanMeaning s).
    + intros s' [= <-] Hr. by apply scoreOr5_in_range.
  - repeat split; done.
Qed.

(** X21.  Whatever summaries the page receives (too few, empty meanings,
    zero scores), it shows the digest entries themselves, one pattern per
    entry and in the same order, each with the frequency of its entry as
    its number of occurrences, a meaning that is not empty and a score
    that is not zero. *)
Theorem combine_shows_every_entry (digest : list LogDigest)
    (aiSummaries : list AISummary) :
  map entry (combine digest aiSummaries) = digest
  /\ Forall (fun p => totalOccurrences p = frequency (entry p)
                      /\ p_humanMeaning p <> ""
                      /\ ~ (p_severityScore p == 0)%Q)
            (combine digest aiSummaries).
Proof.
  split.
  - apply list_eq. intros i. rewrite list_lookup_fmap.
    destruct (combine digest aiSummaries !! i) as [p|] eqn:Hp; simpl.
    + apply combine_lookup in Hp. symmetry. tauto.
    + symmetry. apply lookup_ge_None. apply lookup_ge_None in Hp.
      unfold combine in Hp. by rewrite length_imap in Hp.
  - apply Forall_lookup. intros i p Hp. apply combine_lookup in Hp. tauto.
Qed.

(** X22.  From the model's answers to the page: the patterns shown for a
    digest and any answers carry the scores of the summaries unchanged,
    so every score shown lies between 1 and 10. *)
Theorem page_scores_in_range (digest : list LogDigest)
    (responses : list AiResponse) :
  map p_severityScore (combine digest (summarize digest responses))
  = map severityScore (summarize digest responses)
  /\ Forall (fun p => InRange (p_severityScore p))
            (combine digest (summarize digest responses)).
Proof.
  assert (forall i p, combine digest (summarize digest responses) !! i = Some p ->
            exists s, summarize digest responses !! i = Some s
                      /\ p_severityScore p = severityScore s
                      /\ InRange (severityScore s)) as Hpt.
  { intros i p Hp. apply combine_lookup in Hp as (Hd & _ & _ & _ & Hs).
    destruct (summarize_lookup digest responses i _ Hd) as [r Hr].
    eexists. split; [exact Hr|]. split.
    - apply Hs; [exact Hr|]. apply clampScore_in_range.
    - apply clampScore_in_range. }
  split.
  - apply list_eq. intros i. rewrite !list_lookup_fmap.
    destruct (combine digest (summarize digest responses) !! i) as [p|] eqn:Hp; simpl.
    + destruct (Hpt i p Hp) as (s & -> & -> & _). done.
    + apply lookup_ge_None in Hp. unfold combine in Hp. rewrite length_imap in Hp.
      replace (summarize digest responses !! i) with (@None AISummary); [done|].
      symmetry. apply lookup_ge_None. unfold summarize. by rewrite length_imap.
  - apply Forall_lookup. intros i p Hp.
    destruct (Hpt i p Hp) as (s & _ & -> & Hr). exact Hr.
Qed.

(** ** The format shown *)

(** X23.  Round trip between the parsers and the page.  A record read by
    the parser of a format makes the page show that very format.  The
    record substituted for a row that could not be read, whatever the row
    and the format in force (the automatic one and the ones without a
    parser included), makes it show the automatic format. *)
Theorem formatOfSource_of_parsed :
  (forall (f : LogFormat) (parse : RawRow -> list string -> Completion LogEntry)
          (row : RawRow) (headers : list string) (e : LogEntry),
      rowParser f = Some parse -> parse row headers = Normal e ->
      formatOfSource (source e) = ShownFormat f)
  /\ (forall (now : string) (row : RawRow) (detectedFormat : LogFormat),
        formatOfSource (source (fallbackEntry now row detectedFormat))
        = ShownFormat auto).
Proof.
  split.
  - intros f parse row headers e Hf He. destruct row as [props|].
    + destruct f; try discriminate Hf; injection Hf as <-.
      * rewrite parseWindowsLog_object in He. by injection He as <-.
      * rewrite parseLinuxSyslog_object in He. by injection He as <-.
      * destruct (parseApacheLog_object props headers) as (l & _ & Hp).
        rewrite Hp in He. by injection He as <-.
      * rewrite parseHadoopLog_object in He. by injection He as <-.
      * rewrite parseSparkLog_object in He. by injection He as <-.
      * destruct (parseOpenSSHLog_object props headers) as (l & _ & Hp).
        rewrite Hp in He. by injection He as <-.
    + destruct (rowParser_null f parse headers Hf) as [err Herr]. congruence.
  - intros now row detectedFormat. by destruct detectedFormat.
Qed.

(** A Windows row shows the Windows format; the record substituted for a
    [null] row of the same file shows the automatic one. *)
Lemma formatOfSource_of_parsed_witness :
  formatOfSource
    (source (mkLogEntry "12:00" "CBS" "Info" "Loaded" (Some "Windows") None None))
  = ShownFormat windows
  /\ formatOfSource (source (fallbackEntry "now" RowNull windows)) = ShownFormat auto.
Proof.
  destruct formatOfSource_of_parsed as [Hparsed Hsubstituted]. split.
  - apply (Hparsed windows parseWindowsLog
             (RowObject [("Time", Str "12:00"); ("Component", Str "CBS");
                         ("Level", Str "Info"); ("Content", Str "Loaded")])
             ["Time"; "Component"; "Level"; "Content"]); reflexivity.
  - apply Hsubstituted.
Defined.

(** ** Ties keep the order of the file *)

Lemma clusters_of_distinct (logs : list LogEntry) (acc : Clusters) :
  NoDup (map keyOf logs) ->
  (forall log, log ∈ logs -> keyOf log ∉ map fst acc) ->
  fold_left step logs acc
  = acc ++ map (fun log => (keyOf log,
                            mkCluster (component log) (level log) 1
                                      (content log) (keyOf log))) logs.
Proof.
  revert acc. induction logs as [|log logs IH]; intros acc Hnd Hfresh.
  - simpl. by rewrite app_nil_r.
  - simpl in Hnd. apply NoDup_cons in Hnd as [Hlog Hnd]. cbn [fold_left].
    assert (ownCluster acc (keyOf log) = None) as Hown.
    { apply ownCluster_None, Hfresh, list_elem_of_here. }
    unfold step at 2. rewrite Hown, keyOf_not_inherited, bump_fresh by done.
    rewrite IH; [by rewrite <- app_assoc| done |].
    intros log' Hin. rewrite map_app. simpl. rewrite elem_of_app, list_elem_of_singleton.
    intros [Hacc | Heq].
    + apply (Hfresh log'); [by apply list_elem_of_further | done].
    + apply Hlog. rewrite <- Heq. apply list_elem_of_fmap. by exists log'.
Qed.

Lemma insertSorted_tie {A} (cmp : A -> A -> JsNumber) (pivot : A) (sorted : list A) :
  (forall y, y ∈ sorted -> sortCompare cmp pivot y = 0) ->
  insertSorted cmp pivot sorted = sorted ++ [pivot].
Proof.
  induction sorted as [|y sorted IH]; intros Htie; [done|].
  cbn [insertSorted]. rewrite (Htie y) by apply list_elem_of_here.
  simpl. rewrite IH; [done|]. intros z Hz. by apply Htie, list_elem_of_further.
Qed.

Lemma sortWith_ties {A} (cmp : A -> A -> JsNumber) (l acc : list A) :
  (forall x y, x ∈ l -> y ∈ acc ++ l -> sortCompare cmp x y = 0) ->
  fold_left (fun sorted pivot => insertSorted cmp pivot sorted) l acc = acc ++ l.
Proof.
  revert acc. induction l as [|x l IH]; intros acc Htie.
  - simpl. by rewrite app_nil_r.
  - cbn [fold_left]. rewrite insertSorted_tie.
    + rewrite IH; [by rewrite <- app_assoc|].
      intros a b Ha Hb. apply Htie; [by apply list_elem_of_further|].
      by rewrite <- app_assoc in Hb.
    + intros y Hy. apply Htie; [apply list_elem_of_here|].
      apply elem_of_app. by left.
Qed.

(** X24.  Stability of the ranking: in a file where no two records share a
    pattern and all levels have the same priority (ranked or not), nothing
    separates the clusters, and the digest is the first hundred records in
    the order of the file, each with frequency 1. *)
Theorem processLogs_ties_keep_file_order (logs : list LogEntry) :
  NoDup (map keyOf logs) ->
  (forall a b, a ∈ logs -> b ∈ logs ->
               priorityOr0 (level a) = priorityOr0 (level b)) ->
  processLogs (Unified logs) = map seenOnce (take 100 logs).
Proof.
  intros Hnd Hrank. unfold processLogs, unify, clustersOf.
  rewrite clusters_of_distinct by (done || (intros; apply not_elem_of_nil)).
  rewrite app_nil_l, map_map. cbn [snd]. unfold sortWith.
  rewrite sortWith_ties.
  - rewrite app_nil_l, <- fmap_take, map_map. done.
  - intros x y [a [-> Ha]]%list_elem_of_fmap Hy. rewrite app_nil_l in Hy.
    apply list_elem_of_fmap in Hy as [b [-> Hb]].
    unfold sortCompare, compareClusters. cbn [count c_level].
    rewrite bool_decide_false by (intros H; by apply H).
    rewrite (Hrank a b Ha Hb). destruct (priorityOr0 (level b)); simpl; [f_equal; lia|done].
Qed.

Lemma processLogs_ties_keep_file_order_witness :
  processLogs (Unified [mkLogEntry "" "disk" "Debug" "slow" None None None;
                        mkLogEntry "" "net" "Trace" "up" None None None;
                        mkLogEntry "" "cpu" "Debug" "hot" None None None])
  = [mkLogDigest "disk" "Debug" 1 "slow" "disk-Debug";
     mkLogDigest "net" "Trace" 1 "up" "net-Trace";
     mkLogDigest "cpu" "Debug" 1 "hot" "cpu-Debug"].
Proof.
  apply (processLogs_ties_keep_file_order
           [mkLogEntry "" "disk" "Debug" "slow" None None None;
            mkLogEntry "" "net" "Trace" "up" None None None;
            mkLogEntry "" "cpu" "Debug" "hot" None None None]).
  - refine (bool_decide_unpack _ _). vm_compute. exact I.
  - intros a b Ha Hb.
    rewrite !elem_of_cons, elem_of_nil in Ha.
    rewrite !elem_of_cons, elem_of_nil in Hb.
    destruct Ha as [->|[->|[->|[]]]]; destruct Hb as [->|[->|[->|[]]]]; reflexivity.
Defined.
